(** * npm-file-include: the include-resolution engine

    A shallow embedding of [src/npmFileInclude.js] (and of its near-duplicate
    copy, which only adds progress-bar reporting around the same logic):
    the directive matcher [getMatches], the scanner [checkForPattern], the
    fragment classifier [removeIncludedFiles], the resolver [doFileInclude]
    and the writer [writeFiles], followed by the properties of the
    specification checked against them.

    JavaScript strings are sequences of UTF-16 code units; they are modelled
    as lists of [N].  The file system, [path.dirname] and the write sink are
    collaborators of the program and are taken as a [World].  Of the calls
    of [log] only the error-level ones are kept; the verbose listings and
    the progress bars read the data and change nothing. *)

From Stdlib Require Import Strings.String Strings.Ascii.
From Stdlib Require Import List NArith ZArith Arith Bool Lia.
Import ListNotations.

(** ** JavaScript strings *)

Module JS.

Definition jsstring := list N.

(** A literal, written as a Rocq string of ASCII characters. *)
Definition lit (s : String.string) : jsstring :=
  map Ascii.N_of_ascii (String.list_ascii_of_string s).
Arguments lit s%_string.

Definition chr (a : Ascii.ascii) : N := Ascii.N_of_ascii a.
Arguments chr a%_char.

Definition SLASH  : N := Eval cbv in chr "/".
Definition DOLLAR : N := Eval cbv in chr "$".
Definition AMP    : N := Eval cbv in chr "&".
Definition QUOTE  : N := Eval cbv in chr "'".
Definition BTICK  : N := Eval cbv in chr "`".
Definition RPAR   : N := Eval cbv in chr ")".

(** [a === b] on strings. *)
Fixpoint streq (a b : jsstring) : bool :=
  match a, b with
  | [], [] => true
  | x :: a', y :: b' => N.eqb x y && streq a' b'
  | _, _ => false
  end.

(** Truthiness of a string and of an array length. *)
Definition truthy (s : jsstring) : bool :=
  match s with [] => false | _ => true end.

Definition nonEmpty {A : Type} (l : list A) : bool :=
  match l with [] => false | _ => true end.

(** [s.startsWith(p)], returning what follows the prefix. *)
Fixpoint stripPrefix (p s : jsstring) : option jsstring :=
  match p with
  | [] => Some s
  | x :: p' =>
      match s with
      | [] => None
      | y :: s' => if N.eqb x y then stripPrefix p' s' else None
      end
  end.

(** [s.indexOf(search)]: the least position at which [search] occurs. *)
Fixpoint indexOf (search s : jsstring) : option nat :=
  match stripPrefix search s with
  | Some _ => Some 0
  | None =>
      match s with
      | [] => None
      | _ :: s' => option_map S (indexOf search s')
      end
  end.

(** GetSubstitution of ECMAScript for a string pattern: there are no
    captures, so [$$], [$&], [$`] and [$'] are the only replacement patterns
    that expand; a [$] followed by anything else stands for itself. *)
Fixpoint getSubstitution (matched before after repl : jsstring) : jsstring :=
  match repl with
  | [] => []
  | c :: r =>
      if N.eqb c DOLLAR then
        match r with
        | [] => [c]
        | d :: r' =>
            if N.eqb d DOLLAR then DOLLAR :: getSubstitution matched before after r'
            else if N.eqb d AMP then matched ++ getSubstitution matched before after r'
            else if N.eqb d BTICK then before ++ getSubstitution matched before after r'
            else if N.eqb d QUOTE then after ++ getSubstitution matched before after r'
            else c :: getSubstitution matched before after r
        end
      else c :: getSubstitution matched before after r
  end.

(** [s.replace(search, repl)] with a string [search]: only the first
    occurrence is replaced, and [repl] goes through [getSubstitution]. *)
Definition replace (s search repl : jsstring) : jsstring :=
  match indexOf search s with
  | None => s
  | Some pos =>
      let before := firstn pos s in
      let after  := skipn (pos + length search) s in
      before ++ getSubstitution search before after repl ++ after
  end.

(** [s.split(sep)] for a one-character separator: never the empty array. *)
Fixpoint split (sep : N) (s : jsstring) : list jsstring :=
  match s with
  | [] => [[]]
  | c :: s' =>
      if N.eqb c sep then [] :: split sep s'
      else
        match split sep s' with
        | seg :: segs => (c :: seg) :: segs
        | [] => [[c]]
        end
  end.

(** [parts.join(sep)]. *)
Fixpoint join (sep : N) (parts : list jsstring) : jsstring :=
  match parts with
  | [] => []
  | [p] => p
  | p :: rest => p ++ sep :: join sep rest
  end.

(** ToString of a property that may be [undefined]. *)
Definition toString (v : option jsstring) : jsstring :=
  match v with
  | Some s => s
  | None => lit "undefined"
  end.

End JS.
Import JS.

(** ** The include pattern

    [includePattern] is a global regular expression: the literal text
    [@@include], an opening parenthesis and a single quote; then a greedy
    run of any characters but line terminators, which is the one capture;
    then a single quote and a closing parenthesis. *)

Module Pattern.

(** What [.] refuses: the line terminators of ECMAScript. *)
Definition lineTerminator (c : N) : bool :=
  N.eqb c 10 || N.eqb c 13 || N.eqb c 8232 || N.eqb c 8233.

Definition OPEN  : jsstring := Eval cbv in lit "@@include('".
Definition CLOSE : jsstring := Eval cbv in lit "')".

(** The characters [.*] can take at most: up to the end of the line. *)
Fixpoint lineOf (s : jsstring) : jsstring :=
  match s with
  | [] => []
  | c :: s' => if lineTerminator c then [] else c :: lineOf s'
  end.

(** Backtracking of the greedy [.*]: the greatest [k] such that ['] and [)]
    stand at positions [k] and [k+1]. *)
Fixpoint lastClose (l : jsstring) : option nat :=
  match l with
  | [] => None
  | c :: l' =>
      match lastClose l' with
      | Some k => Some (S k)
      | None =>
          match stripPrefix CLOSE l with
          | Some _ => Some 0
          | None => None
          end
      end
  end.

(** The pattern tried at the start of [s]: [match[0]] and [match[1]]. *)
Definition matchHere (s : jsstring) : option (jsstring * jsstring) :=
  match stripPrefix OPEN s with
  | None => None
  | Some rest =>
      match lastClose (lineOf rest) with
      | None => None
      | Some k =>
          let captured := firstn k rest in
          Some (OPEN ++ captured ++ CLOSE, captured)
      end
  end.

(** The leftmost position at or after [i] where the pattern matches; [s] is
    the subject from position [i] on. *)
Fixpoint searchFrom (s : jsstring) (i : nat) : option (nat * (jsstring * jsstring)) :=
  match matchHere s with
  | Some m => Some (i, m)
  | None =>
      match s with
      | [] => None
      | _ :: s' => searchFrom s' (S i)
      end
  end.

(** [pattern.exec(data)] for the global pattern, whose [lastIndex] is the
    second component of the result: the end of the match, or 0 on failure. *)
Definition exec (data : jsstring) (lastIndex : nat)
  : option (nat * (jsstring * jsstring)) * nat :=
  if length data <? lastIndex then (None, 0)
  else
    match searchFrom (skipn lastIndex data) lastIndex with
    | Some (i, (whole, captured)) => (Some (i, (whole, captured)), i + length whole)
    | None => (None, 0)
    end.

End Pattern.
Import Pattern.

(** ** Data model *)

(** [{ string: match[0], filename: match[1] }] *)
Record IncMatch := mkMatch { m_string : jsstring; m_filename : jsstring }.

(** [{ directory, filename, matches }] *)
Record SourceFile := mkSource {
  directory : jsstring;
  filename  : jsstring;
  matches   : list IncMatch
}.

(** What [doFileInclude] reads of its argument: a source file (which has no
    [string] property) or a match that was given a [directory]. *)
Record Target := mkTarget {
  t_directory : jsstring;
  t_filename  : jsstring;
  t_string    : option jsstring
}.

Definition targetOfSource (f : SourceFile) : Target :=
  mkTarget (directory f) (filename f) None.

Definition targetOfMatch (dir : jsstring) (m : IncMatch) : Target :=
  mkTarget dir (m_filename m) (Some (m_string m)).

(** Error-level calls of [log]. *)
Inductive LogEntry :=
| LogFileNotFound (message : jsstring)
| LogCannotReadSourceDirectory
| LogCannotWriteFile.

(** The [summary] counters; [console], the error-level calls of [log] in
    the order they are made, each printed when the output level lets it;
    and [disk], the writes to the destination that succeeded, in the order
    they are made: a later write to a path replaces the file of an earlier
    one. *)
Record State := mkState {
  written : nat;
  errors  : nat;
  console : list LogEntry;
  disk    : list (jsstring * jsstring)
}.

Definition initialState : State := mkState 0 0 [] [].

Definition logError (e : LogEntry) (st : State) : State :=
  mkState (written st) (errors st) (console st ++ [e]) (disk st).

Definition countError (st : State) : State :=
  mkState (written st) (S (errors st)) (console st) (disk st).

Definition recordWrite (path contents : jsstring) (st : State) : State :=
  mkState (S (written st)) (errors st) (console st) (disk st ++ [(path, contents)]).

(** [error.code] of a failed read. *)
Inductive ErrCode := EISDIR | ENOENT | EACCES | EOTHER.

Inductive ReadResult := ReadOk (contents : jsstring) | ReadErr (code : ErrCode).

(** The collaborators: [fs.readFileSync(path, 'utf8')], [path.dirname], and
    whether [mkdirp.sync] followed by [fs.writeFileSync] succeeds on a path.
    A read gives the same result throughout a run: the files the run writes
    are taken to lie apart from the files it reads. *)
Record World := mkWorld {
  readFileSync  : jsstring -> ReadResult;
  path_dirname  : jsstring -> jsstring;
  writeSucceeds : jsstring -> bool
}.

(** The options of [commander] the engine reads. *)
Record Commander := mkCommander {
  includeRecursive : bool;
  omitSourceParent : bool;
  destination      : jsstring
}.

Definition defaultCommander : Commander :=
  mkCommander true true (lit "build").

(** ** The program *)

(** The [while] loop of [getMatches]: each round calls [exec] and pushes the
    match; [fuel] bounds the number of rounds. *)
Fixpoint getMatchesLoop (fuel : nat) (data : jsstring) (lastIndex : nat)
    (found : list IncMatch) : option (list IncMatch * nat) :=
  match fuel with
  | 0 => None
  | S fuel' =>
      match exec data lastIndex with
      | (Some (_, (whole, captured)), lastIndex') =>
          getMatchesLoop fuel' data lastIndex' (found ++ [mkMatch whole captured])
      | (None, lastIndex') => Some (found, lastIndex')
      end
  end.

(** [getMatches] entered with the pattern's [lastIndex] at a given value:
    the matches and the [lastIndex] the pattern is left with. *)
Definition getMatchesFrom (data : jsstring) (lastIndex : nat)
  : option (list IncMatch * nat) :=
  getMatchesLoop (S (length data)) data lastIndex [].

(** [getMatches( data, includePattern )].  The pattern starts at
    [lastIndex = 0] and every call leaves it there ([getMatchesFrom_total]),
    so the index is not threaded through the callers. *)
Definition getMatches (data : jsstring) : list IncMatch :=
  match getMatchesFrom data 0 with
  | Some (found, _) => found
  | None => []
  end.

Definition getFilename (file : jsstring) : jsstring :=
  last (split SLASH file) [].

Definition getDirectory (file : jsstring) : jsstring :=
  join SLASH (removelast (split SLASH file)).

(** The template literal [`${a}/${b}`]. *)
Definition slashed (a b : jsstring) : jsstring := a ++ SLASH :: b.

Definition getFileContents (w : World) (file : jsstring) : ReadResult :=
  readFileSync w file.

(** [checkForPattern]: the loop over the found files, with [hasPattern] as
    accumulator.  A read that fails with [EISDIR] logs and breaks; any other
    failure is swallowed by the empty rest of the [catch]. *)
Fixpoint checkForPatternLoop (w : World) (files : list jsstring)
    (hasPattern : list SourceFile) (st : State) : list SourceFile * State :=
  match files with
  | [] => (hasPattern, st)
  | file :: rest =>
      match readFileSync w file with
      | ReadOk contents =>
          let found := getMatches contents in
          if nonEmpty found then
            checkForPatternLoop w rest
              (hasPattern ++ [mkSource (path_dirname w file) (getFilename file) found]) st
          else checkForPatternLoop w rest hasPattern st
      | ReadErr EISDIR => (hasPattern, logError LogCannotReadSourceDirectory st)
      | ReadErr _ => checkForPatternLoop w rest hasPattern st
      end
  end.

Definition checkForPattern (w : World) (files : list jsstring) (st : State)
  : list SourceFile * State :=
  checkForPatternLoop w files [] st.

(** [removeIncludedFiles]: both loops run over the array the function was
    given, while [files] is rebound to the filtered array each round. *)
Definition removeIncludedFiles (files : list SourceFile) : list SourceFile :=
  fold_left
    (fun kept file =>
       fold_left
         (fun kept' m =>
            filter (fun f => negb (streq (getFilename (m_filename m)) (filename f))) kept')
         (matches file) kept)
    files files.

(** How the [try] block of [doFileInclude] ended: the current value of
    [contents], and whether the [catch] block is entered. *)
Inductive TryEnd := Finished | Caught.

(** The [for] loop over the matches.  [fetch] computes [matchContents]; it
    yields no string when [getFileContents] throws. *)
Fixpoint includeLoop (fetch : IncMatch -> State -> option (option jsstring * State))
    (found : list IncMatch) (contents : jsstring) (st : State)
  : option (TryEnd * jsstring * State) :=
  match found with
  | [] => Some (Finished, contents, st)
  | m :: rest =>
      match fetch m st with
      | None => None
      | Some (None, st') => Some (Caught, contents, st')
      | Some (Some matchContents, st') =>
          includeLoop fetch rest (replace contents (m_string m) matchContents) st'
      end
  end.

(** [match.directory] as the loop sets it. *)
Definition matchDirectoryOf (file : Target) : jsstring :=
  let matchDirectory := getDirectory (t_filename file) in
  if truthy matchDirectory then slashed (t_directory file) matchDirectory
  else t_directory file.

(** [matchContents] for one match: the recursive call [doFileInclude( match )],
    here [resolve], or the raw contents of the referenced file; no string
    when [getFileContents] throws. *)
Definition fetchMatch (w : World) (cmd : Commander)
    (resolve : Target -> bool -> State -> option (jsstring * State))
    (dir : jsstring) (m : IncMatch) (st : State)
  : option (option jsstring * State) :=
  if includeRecursive cmd then
    match resolve (targetOfMatch dir m) true st with
    | None => None
    | Some (matchContents, st') => Some (Some matchContents, st')
    end
  else
    match getFileContents w (slashed dir (m_filename m)) with
    | ReadOk matchContents => Some (Some matchContents, st)
    | ReadErr _ => Some (None, st)
    end.

(** The [catch] block of [doFileInclude]. *)
Definition notFound (file : Target) (insertNotFound : bool)
    (contents : jsstring) (st : State) : jsstring * State :=
  let includeContents := lit "File not found: " ++ t_filename file in
  let contents' :=
    if insertNotFound then replace contents (toString (t_string file)) includeContents
    else contents in
  (contents', countError (logError (LogFileNotFound includeContents) st)).

(** [doFileInclude( file, insertNotFound )].  [insertNotFound] is the
    parameter after [insertNotFound !== false]: [true] when the argument is
    omitted, as in both calls the program makes.  [None] stands for a
    recursion deeper than [fuel]: the model follows the calls that end.
    Inclusion without end exhausts the call stack of the engine, which is
    not part of the model. *)
Fixpoint doFileInclude (w : World) (cmd : Commander) (fuel : nat)
    (file : Target) (insertNotFound : bool) (st : State)
  : option (jsstring * State) :=
  match fuel with
  | 0 => None
  | S fuel' =>
      match getFileContents w (slashed (t_directory file) (t_filename file)) with
      | ReadErr _ => Some (notFound file insertNotFound [] st)
      | ReadOk contents =>
          let fetch :=
            fetchMatch w cmd (doFileInclude w cmd fuel') (matchDirectoryOf file) in
          match includeLoop fetch (getMatches contents) contents st with
          | None => None
          | Some (Finished, contents', st') => Some (contents', st')
          | Some (Caught, contents', st') =>
              Some (notFound file insertNotFound contents' st')
          end
      end
  end.

(** The destination path [writeFiles] computes, below [commander.destination]. *)
Definition outputPath (cmd : Commander) (file : SourceFile) : jsstring :=
  if omitSourceParent cmd then filename file
  else slashed (directory file) (filename file).

(** [writeFiles]. *)
Fixpoint writeFiles (w : World) (cmd : Commander) (fuel : nat)
    (files : list SourceFile) (st : State) : option State :=
  match files with
  | [] => Some st
  | file :: rest =>
      match doFileInclude w cmd fuel (targetOfSource file) true st with
      | None => None
      | Some (contents, st1) =>
          let path := slashed (destination cmd) (outputPath cmd file) in
          let st2 :=
            if writeSucceeds w path then recordWrite path contents st1
            else countError (logError LogCannotWriteFile st1) in
          writeFiles w cmd fuel rest st2
      end
  end.

(** [init], from the files [findFiles] returned: the scan, the
    classification, and the resolution and writing of what is left. *)
Definition init (w : World) (cmd : Commander) (fuel : nat)
    (foundFiles : list jsstring) (st : State) : option State :=
  let '(hasPattern, st1) :=
    if nonEmpty foundFiles then checkForPattern w foundFiles st else ([], st) in
  let filesNotIncluded :=
    if nonEmpty hasPattern then removeIncludedFiles hasPattern else [] in
  if nonEmpty filesNotIncluded then writeFiles w cmd fuel filesNotIncluded st1
  else Some st1.

(** ** Notions the properties are stated with *)

(** [s] occurs in [c]. *)
Definition occursIn (s c : jsstring) : Prop :=
  exists u v, c = u ++ s ++ v.

(** The text of a directive with path [p]. *)
Definition directive (p : jsstring) : jsstring := OPEN ++ p ++ CLOSE.

(** [p] fits on a line: it holds no line terminator. *)
Definition oneLine (p : jsstring) : Prop := existsb lineTerminator p = false.

(** A directive stands at the start of [s]. *)
Definition startsDirective (s : jsstring) : Prop :=
  exists p rest, oneLine p /\ s = directive p ++ rest.

(** A content laid out as gaps and matches, followed by a tail. *)
Fixpoint assemble (gs : list (jsstring * IncMatch)) (tail : jsstring) : jsstring :=
  match gs with
  | [] => tail
  | (g, m) :: gs' => g ++ m_string m ++ assemble gs' tail
  end.

(** Positional substitution: each match of the layout gives way, where it
    stands, to the corresponding string of [rs]. *)
Fixpoint splice (gs : list (jsstring * IncMatch)) (rs : list jsstring)
    (tail : jsstring) : jsstring :=
  match gs, rs with
  | (g, _) :: gs', r :: rs' => g ++ r ++ splice gs' rs' tail
  | _, _ => assemble gs tail
  end.

(** The matches of a layout are the leftmost ones and each runs to the last
    closing quote and parenthesis of its line. *)
Fixpoint leftmostGreedy (gs : list (jsstring * IncMatch)) (tail : jsstring) : Prop :=
  match gs with
  | [] => forall k, ~ startsDirective (skipn k tail)
  | (g, m) :: gs' =>
      let rest := assemble gs' tail in
      m_string m = directive (m_filename m)
      /\ oneLine (m_filename m)
      /\ (forall k, k < length g -> ~ startsDirective (skipn k (g ++ m_string m ++ rest)))
      /\ (forall p r, oneLine p -> m_string m ++ rest = directive p ++ r ->
                      length p <= length (m_filename m))
      /\ leftmostGreedy gs' tail
  end.

(** The characters that make a replacement pattern after [$]. *)
Definition patternChar (d : N) : bool :=
  N.eqb d DOLLAR || N.eqb d AMP || N.eqb d BTICK || N.eqb d QUOTE.

(** [r] holds no replacement pattern: no [$] of it is followed by a
    pattern character. *)
Fixpoint patternFree (r : jsstring) : bool :=
  match r with
  | [] => true
  | c :: r' =>
      match r' with
      | [] => true
      | d :: _ => negb (N.eqb c DOLLAR && patternChar d) && patternFree r'
      end
  end.


(** With [done] the content substituted so far, the first occurrence of each
    directive's text is the directive itself. *)
Fixpoint ownFirst (done : jsstring) (gs : list (jsstring * IncMatch))
    (rs : list jsstring) : Prop :=
  match gs, rs with
  | (g, m) :: gs', r :: rs' =>
      indexOf (m_string m) (done ++ g ++ m_string m) = Some (length (done ++ g))
      /\ ownFirst (done ++ g ++ r) gs' rs'
  | _, _ => True
  end.

(** The matches [found] are fetched one after the other, giving [rs]. *)
Inductive Fetched (fetch : IncMatch -> State -> option (option jsstring * State))
  : list IncMatch -> list jsstring -> State -> State -> Prop :=
| Fetched_nil : forall st, Fetched fetch [] [] st st
| Fetched_cons : forall m found r rs st st1 st2,
    fetch m st = Some (Some r, st1) ->
    Fetched fetch found rs st1 st2 ->
    Fetched fetch (m :: found) (r :: rs) st st2.


(** [f] is the target of some directive of [files], by file name alone. *)
Definition referencedBy (files : list SourceFile) (f : SourceFile) : bool :=
  existsb
    (fun g =>
       existsb
         (fun m => streq (getFilename (m_filename m)) (getFilename (filename f)))
         (matches g))
    files.

(** The [filename] of a source file is a last path segment already. *)
Definition baseNamed (f : SourceFile) : Prop :=
  getFilename (filename f) = filename f.

(** The test of the [filter] in [removeIncludedFiles]. *)
Definition keeps (m : IncMatch) (f : SourceFile) : bool :=
  negb (streq (getFilename (m_filename m)) (filename f)).

(** ** Example worlds *)

Fixpoint lookupFile (files : list (jsstring * jsstring)) (p : jsstring)
  : option jsstring :=
  match files with
  | [] => None
  | (q, c) :: rest => if streq p q then Some c else lookupFile rest p
  end.

(** A world made of regular files, of directories (reading one fails with
    [EISDIR]) and of protected paths (reading one fails with [EACCES]);
    every other path fails with [ENOENT]. *)
Definition worldOf (files : list (jsstring * jsstring))
    (dirs protected : list jsstring) : World :=
  mkWorld
    (fun p =>
       match lookupFile files p with
       | Some c => ReadOk c
       | None =>
           if existsb (streq p) dirs then ReadErr EISDIR
           else if existsb (streq p) protected then ReadErr EACCES
           else ReadErr ENOENT
       end)
    (fun p => let d := getDirectory p in if truthy d then d else lit ".")
    (fun _ => true).

Definition LF : jsstring := [10%N].

(** Three scanned files: a page, the header it includes, and a file of the
    same name as the header in another directory. *)
Definition exPage : SourceFile :=
  mkSource (lit "src") (lit "index.html")
           [mkMatch (lit "@@include('partials/header.html')") (lit "partials/header.html")].
Definition exHeader : SourceFile :=
  mkSource (lit "src/partials") (lit "header.html")
           [mkMatch (lit "@@include('logo.html')") (lit "logo.html")].
Definition exOtherHeader : SourceFile :=
  mkSource (lit "src/admin") (lit "header.html")
           [mkMatch (lit "@@include('menu.html')") (lit "menu.html")].
Definition exScanned : list SourceFile := [exPage; exHeader; exOtherHeader].

(** A page whose only directive names a file that does not exist. *)
Definition exRoot : Target := mkTarget (lit "src") (lit "index.html") None.

Definition worldMissing : World :=
  worldOf [(lit "src/index.html", lit "<p>@@include('missing.html')</p>")] [] [].

(** The source tree of the end-to-end example: a page and its header. *)
Definition worldHeader : World :=
  worldOf [(lit "src/index.html", lit "@@include('partials/header.html')");
           (lit "src/partials/header.html", lit "<h1>Hi</h1>")] [] [].

Definition exHeaderTarget : Target :=
  mkTarget (lit "src") (lit "partials/header.html")
           (Some (lit "@@include('partials/header.html')")).

(** A source tree with a directory and a protected file among the
    candidates. *)
Definition worldUnreadable : World :=
  worldOf [(lit "src/index.html", lit "@@include('partials/header.html')");
           (lit "src/partials/header.html", lit "<h1>Hi</h1>")]
          [lit "src/dir.html"] [lit "src/locked.html"].

Definition exPageSource : SourceFile :=
  mkSource (lit "src/pages") (lit "pages/index.html") [].

(** Two directives on one line. *)
Definition exTwoOnALine : jsstring := lit "@@include('a')@@include('b')".

Definition rawCommander : Commander := mkCommander false true (lit "build").

Definition dirA : jsstring := lit "@@include('a')".

(** A page with three directives; only the first file exists. *)
Definition worldGaps : World :=
  worldOf [(lit "src/index.html",
            lit "A" ++ dirA ++ LF ++ lit "B@@include('missing')" ++ LF
                ++ lit "C@@include('gone')");
           (lit "src/a", lit "x")] [] [].

(** A page with the same directive twice, and the one fragment [A]. *)
Definition worldTwice : World :=
  worldOf [(lit "src/index.html", dirA ++ LF ++ dirA); (lit "src/a", lit "A")] [] [].

(** The same page, whose fragment quotes the directive that includes it. *)
Definition worldSelf : World :=
  worldOf [(lit "src/index.html", dirA ++ LF ++ dirA);
           (lit "src/a", lit "<" ++ dirA ++ lit ">")] [] [].

Definition layoutTwice : list (jsstring * IncMatch) :=
  [([], mkMatch dirA (lit "a")); (LF, mkMatch dirA (lit "a"))].

(** A page, a fragment with a directive of its own, and a leaf. *)
Definition worldNested : World :=
  worldOf [(lit "src/index.html", lit "<a href='mailto:a@b.c'>@@include('a')</a>");
           (lit "src/a", lit "[@@include('b')]");
           (lit "src/b", lit "B")] [] [].


(** ** The options, the log levels and the file finder *)

Definition SPACE : N := Eval cbv in chr " ".
Definition COMMA : N := Eval cbv in chr ",".

(** [argList]: the first comma is taken out, then the value is cut at the
    spaces. *)
Definition argList (val : jsstring) : list jsstring :=
  split SPACE (replace val [COMMA] []).

(** [toBoolean]. *)
Definition toBoolean (val : jsstring) : bool := streq val (lit "true").

(** [logFlags]. *)
Definition SILENT       : Z := 0%Z.
Definition DEFAULT      : Z := 1%Z.
Definition VERBOSE      : Z := 2%Z.
Definition EXTRAVERBOSE : Z := 4%Z.

Definition logConfig : Z :=
  Z.lor (Z.lor (Z.lor SILENT DEFAULT) VERBOSE) EXTRAVERBOSE.

(** A flag of [commander] as an operand of [&]: 1 when the flag was given,
    0 when it is [false] or absent. *)
Definition flagBit (given : bool) : Z := if given then 1%Z else 0%Z.

(** Truthiness of a number. *)
Definition nonZero (z : Z) : bool := negb (Z.eqb z 0%Z).

(** [outputLevel] after the chain of tests on the three flags. *)
Definition outputLevel (silent verbose extraVerbose : bool) : Z :=
  if nonZero (Z.land logConfig (flagBit silent)) then SILENT
  else if nonZero (Z.land logConfig (flagBit verbose)) then Z.lor VERBOSE DEFAULT
  else if nonZero (Z.land logConfig (flagBit extraVerbose))
       then Z.lor (Z.lor EXTRAVERBOSE VERBOSE) DEFAULT
  else DEFAULT.

(** The test of [log]: whether a message of level [level] is printed. *)
Definition printed (level outputLevel : Z) : bool :=
  nonZero (Z.land outputLevel level).

(** The test around [console.time] in the copy with the progress bars. *)
Definition timed (outputLevel : Z) : bool :=
  nonZero (Z.land outputLevel (Z.lnot SILENT)).

(** [findFiles], with [glob.sync] as [glob]. *)
Definition findFiles (glob : jsstring -> list jsstring)
    (includes path : list jsstring) : list jsstring :=
  fold_left
    (fun fileList directory =>
       fold_left
         (fun fileList' include => fileList' ++ glob (slashed directory include))
         includes fileList)
    path [].

(** ** Notions for the further properties *)

(** What one candidate contributes to [hasPattern]. *)
Definition scanOne (w : World) (file : jsstring) : list SourceFile :=
  match readFileSync w file with
  | ReadOk contents =>
      if nonEmpty (getMatches contents)
      then [mkSource (path_dirname w file) (getFilename file) (getMatches contents)]
      else []
  | ReadErr _ => []
  end.

(** The candidates up to the first one that is a directory. *)
Fixpoint beforeDirectory (w : World) (files : list jsstring) : list jsstring :=
  match files with
  | [] => []
  | file :: rest =>
      match readFileSync w file with
      | ReadErr EISDIR => []
      | _ => file :: beforeDirectory w rest
      end
  end.

Definition isWriteFailure (e : LogEntry) : bool :=
  match e with LogCannotWriteFile => true | _ => false end.

Definition isFileNotFound (e : LogEntry) : bool :=
  match e with LogFileNotFound _ => true | _ => false end.

(** The number of failed writes among the calls of [log]. *)
Definition writeFailures (c : list LogEntry) : nat :=
  length (filter isWriteFailure c).

(** From [st] to [st'] only missing files were logged, each counted once,
    and nothing was written. *)
Definition OnlyMissingFiles (st st' : State) : Prop :=
  written st' = written st
  /\ disk st' = disk st
  /\ exists added,
       console st' = console st ++ added
       /\ errors st' = errors st + length added
       /\ forallb isFileNotFound added = true.

(** A well-formed match: a directive text around a one-line path. *)
Definition wellFormed (m : IncMatch) : Prop :=
  m_string m = directive (m_filename m) /\ oneLine (m_filename m).

(** Two scanned pages that include each other. *)
Definition exCycle : list SourceFile :=
  [mkSource (lit "src") (lit "a.html") [mkMatch (lit "@@include('b.html')") (lit "b.html")];
   mkSource (lit "src") (lit "b.html") [mkMatch (lit "@@include('./a.html')") (lit "./a.html")]].

(** No match of [gs] names [f]. *)
Definition unreferenced (gs : list SourceFile) (f : SourceFile) : bool :=
  forallb (fun g => forallb (fun m => keeps m f) (matches g)) gs.

(** A fragment that holds replacement patterns. *)
Definition worldDollar : World :=
  worldOf [(lit "src/index.html", lit "<p>@@include('a')</p>");
           (lit "src/a", lit "[$&|$$]")] [] [].

Definition isDirectoryFailure (e : LogEntry) : bool :=
  match e with LogCannotReadSourceDirectory => true | _ => false end.

(** The number of calls of [log] about a source directory. *)
Definition directoryFailures (c : list LogEntry) : nat :=
  length (filter isDirectoryFailure c).


(** The path [doFileInclude] reads for [file]. *)
Definition pathOf (file : Target) : jsstring :=
  slashed (t_directory file) (t_filename file).

(** A depth of inclusion for the files of [worldNested], told by the last
    character of the path: the page, then [a], then anything else. *)
Definition rankNested (p : jsstring) : nat :=
  let c := last p 0%N in
  if N.eqb c (chr "l") then 2 else if N.eqb c (chr "a") then 1 else 0.


(** One turn, in the words of the claim: [c'] is [c] in which the leftmost
    occurrence of [s], and no other, has given way to [r]; it is [c] when
    [s] does not occur. *)
Definition leftmostTurn (c s r c' : jsstring) : Prop :=
  (~ occursIn s c /\ c' = c)
  \/ (exists u v,
        c = u ++ s ++ v
        /\ (forall u' v', c = u' ++ s ++ v' -> length u <= length u')
        /\ c' = u ++ r ++ v).

(** The turns of the matches [ms], in order, each a [leftmostTurn] on the
    content as the turns before it left it: from [c] to [c']. *)
Inductive Turns : list IncMatch -> list jsstring -> jsstring -> jsstring -> Prop :=
| Turns_nil : forall c, Turns [] [] c c
| Turns_cons : forall m ms r rs c c1 c',
    leftmostTurn c (m_string m) r c1 ->
    Turns ms rs c1 c' ->
    Turns (m :: ms) (r :: rs) c c'.


(** The path [writeFiles] writes [file] to. *)
Definition writePath (cmd : Commander) (file : SourceFile) : jsstring :=
  slashed (destination cmd) (outputPath cmd file).

(** Two pages of the same name in two source directories. *)
Definition worldSameName : World :=
  worldOf [(lit "src/en/index.html", lit "@@include('t')");
           (lit "src/en/t", lit "Hello");
           (lit "src/fr/index.html", lit "@@include('t')");
           (lit "src/fr/t", lit "Bonjour")] [] [].

Definition exSameName : list SourceFile :=
  [mkSource (lit "src/en") (lit "index.html") [mkMatch (lit "@@include('t')") (lit "t")];
   mkSource (lit "src/fr") (lit "index.html") [mkMatch (lit "@@include('t')") (lit "t")]].


(** * Properties *)

(** ** Strings *)

Section StringFacts.

Lemma streq_spec (a b : jsstring) : streq a b = true <-> a = b.
Proof.
  revert b; induction a as [|x a IH]; intros [|y b]; simpl; split;
    try congruence; try reflexivity.
  - rewrite andb_true_iff, N.eqb_eq, IH. intros [-> ->]; reflexivity.
  - intros H; injection H as -> ->. rewrite N.eqb_refl. simpl. apply IH; reflexivity.
Qed.

Lemma streq_refl (a : jsstring) : streq a a = true.
Proof. apply streq_spec; reflexivity. Qed.

Lemma streq_false (a b : jsstring) : streq a b = false <-> a <> b.
Proof.
  split.
  - intros H E. apply streq_spec in E. congruence.
  - intros H. destruct (streq a b) eqn:E; [|reflexivity].
    apply streq_spec in E. contradiction.
Qed.

Lemma stripPrefix_Some (p s r : jsstring) :
  stripPrefix p s = Some r <-> s = p ++ r.
Proof.
  revert s; induction p as [|x p IH]; intros s; simpl.
  - split; congruence.
  - destruct s as [|y s].
    + split; discriminate.
    + destruct (N.eqb_spec x y) as [->|N].
      * rewrite IH. split; congruence.
      * split; [discriminate|]. intros H; injection H as E _. congruence.
Qed.

Lemma stripPrefix_app (p r : jsstring) : stripPrefix p (p ++ r) = Some r.
Proof. apply stripPrefix_Some; reflexivity. Qed.

Lemma stripPrefix_None (p s : jsstring) :
  stripPrefix p s = None <-> forall r, s <> p ++ r.
Proof.
  split.
  - intros H r E. apply stripPrefix_Some in E. congruence.
  - intros H. destruct (stripPrefix p s) as [r|] eqn:E; [|reflexivity].
    apply stripPrefix_Some in E. elim (H r E).
Qed.

Lemma indexOf_Some (search : jsstring) :
  forall s k, indexOf search s = Some k ->
    s = firstn k s ++ search ++ skipn (k + length search) s.
Proof.
  induction s as [|c s IH]; intros k; simpl indexOf.
  - destruct (stripPrefix search []) as [r|] eqn:E; [|discriminate].
    intros H; injection H as <-. apply stripPrefix_Some in E.
    symmetry in E. apply app_eq_nil in E as [-> ->]. reflexivity.
  - destruct (stripPrefix search (c :: s)) as [r|] eqn:E.
    + intros H; injection H as <-. apply stripPrefix_Some in E.
      rewrite E. simpl. rewrite skipn_app, skipn_all, Nat.sub_diag. reflexivity.
    + destruct (indexOf search s) as [j|] eqn:Ej; simpl; [|discriminate].
      intros H; injection H as <-. simpl. f_equal. apply IH. reflexivity.
Qed.

Lemma indexOf_least (search : jsstring) :
  forall s k, indexOf search s = Some k ->
    forall u v, s = u ++ search ++ v -> k <= length u.
Proof.
  induction s as [|c s IH]; intros k; simpl.
  - destruct (stripPrefix search []); [|discriminate].
    intros H; injection H as <-. intros; lia.
  - destruct (stripPrefix search (c :: s)) as [r|] eqn:E.
    + intros H; injection H as <-. intros; lia.
    + destruct (indexOf search s) as [j|] eqn:Ej; simpl; [|discriminate].
      intros H; injection H as <-. intros [|d u] v Huv.
      * simpl in Huv. apply stripPrefix_Some in Huv. congruence.
      * simpl in Huv. injection Huv as _ Huv. simpl.
        apply le_n_S. eapply IH; eauto.
Qed.

Lemma indexOf_occurs (search u v : jsstring) :
  exists k, indexOf search (u ++ search ++ v) = Some k /\ k <= length u.
Proof.
  induction u as [|c u IH].
  - exists 0. split; [|simpl; lia]. simpl "++".
    destruct (search ++ v) eqn:E; simpl;
      rewrite <- E, stripPrefix_app; reflexivity.
  - destruct IH as (k & Hk & Hle). simpl "++". simpl indexOf.
    destruct (stripPrefix search (c :: u ++ search ++ v)).
    + exists 0. split; [reflexivity|simpl; lia].
    + rewrite Hk. exists (S k). split; [reflexivity|simpl; lia].
Qed.

Lemma indexOf_None (search s : jsstring) :
  indexOf search s = None -> ~ occursIn search s.
Proof.
  intros H (u & v & ->).
  destruct (indexOf_occurs search u v) as (k & Hk & _). congruence.
Qed.

End StringFacts.

(** ** Replacement of the first occurrence *)

Section ReplaceFacts.

Lemma getSubstitution_patternFree (matched before after r : jsstring) :
  patternFree r = true -> getSubstitution matched before after r = r.
Proof.
  induction r as [|c r IH]; [reflexivity|].
  intros H. cbn [getSubstitution]. destruct r as [|d r'].
  - destruct (N.eqb c DOLLAR); reflexivity.
  - cbn [patternFree] in H. apply andb_true_iff in H as [Hc Hr].
    rewrite (IH Hr). destruct (N.eqb c DOLLAR); [|reflexivity].
    simpl in Hc. unfold patternChar in Hc.
    apply negb_true_iff in Hc. rewrite !orb_false_iff in Hc.
    destruct Hc as [[[-> ->] ->] ->]. reflexivity.
Qed.

Lemma replace_absent (s search r : jsstring) :
  indexOf search s = None -> replace s search r = s.
Proof. unfold replace. intros ->. reflexivity. Qed.

Lemma stripPrefix_None_app (p s t : jsstring) :
  stripPrefix p s = None -> length p <= length s -> stripPrefix p (s ++ t) = None.
Proof.
  revert s; induction p as [|x p IH]; intros s; simpl; [discriminate|].
  destruct s as [|y s]; simpl; [lia|].
  destruct (N.eqb x y); [|reflexivity].
  intros H L. apply IH; [exact H|lia].
Qed.

Lemma indexOf_length (search : jsstring) :
  forall s k, indexOf search s = Some k -> k + length search <= length s.
Proof.
  induction s as [|c s IH]; intros k; simpl indexOf.
  - destruct (stripPrefix search []) as [r|] eqn:E; [|discriminate].
    apply stripPrefix_Some in E. symmetry in E. apply app_eq_nil in E as [-> _].
    intros H; injection H as <-. simpl; lia.
  - destruct (stripPrefix search (c :: s)) as [r|] eqn:E.
    + apply stripPrefix_Some in E. intros H; injection H as <-.
      rewrite E, length_app. lia.
    + destruct (indexOf search s) as [j|] eqn:Ej; simpl; [|discriminate].
      intros H; injection H as <-. specialize (IH j eq_refl). simpl; lia.
Qed.

Lemma indexOf_app (search : jsstring) :
  forall s t k, indexOf search s = Some k -> indexOf search (s ++ t) = Some k.
Proof.
  induction s as [|c s IH]; intros t k H.
  - simpl in H. destruct (stripPrefix search []) as [r|] eqn:E; [|discriminate].
    apply stripPrefix_Some in E. symmetry in E. apply app_eq_nil in E as [-> _].
    injection H as <-. destruct t; reflexivity.
  - assert (L := indexOf_length _ _ _ H). simpl in H. simpl "++". simpl indexOf.
    destruct (stripPrefix search (c :: s)) as [r|] eqn:E.
    + apply stripPrefix_Some in E.
      replace (c :: s ++ t) with (search ++ r ++ t)
        by (change (c :: s ++ t) with ((c :: s) ++ t); rewrite E, <- app_assoc; reflexivity).
      rewrite stripPrefix_app. exact H.
    + destruct (indexOf search s) as [j|] eqn:Ej; simpl in H; [|discriminate].
      injection H as <-.
      change (c :: s ++ t) with ((c :: s) ++ t).
      rewrite stripPrefix_None_app; [|exact E|simpl in *; lia].
      rewrite (IH t j eq_refl). reflexivity.
Qed.

(** Replacing at the directive itself: what follows it is not looked at. *)
Lemma replace_own_first (u search v r : jsstring) :
  indexOf search (u ++ search) = Some (length u) ->
  patternFree r = true ->
  replace (u ++ search ++ v) search r = u ++ r ++ v.
Proof.
  intros H D. unfold replace.
  rewrite app_assoc, (indexOf_app _ _ v _ H), <- app_assoc.
  rewrite getSubstitution_patternFree by exact D.
  rewrite firstn_app, firstn_all, Nat.sub_diag. simpl. rewrite app_nil_r.
  rewrite skipn_app, skipn_all2 by lia.
  replace (length u + length search - length u) with (length search) by lia.
  rewrite skipn_app, skipn_all, Nat.sub_diag. reflexivity.
Qed.

(** Whatever is replaced, the text after an occurrence is kept. *)
Lemma replace_keeps_suffix (u search v r : jsstring) :
  exists kept, replace (u ++ search ++ v) search r = kept ++ v.
Proof.
  unfold replace.
  destruct (indexOf_occurs search u v) as (k & -> & Hk).
  set (c := u ++ search ++ v).
  assert (E : skipn (k + length search) c
              = skipn (k + length search) (u ++ search) ++ v).
  { unfold c. rewrite app_assoc, skipn_app.
    replace (k + length search - length (u ++ search)) with 0
      by (rewrite length_app; lia).
    reflexivity. }
  rewrite E.
  eexists. rewrite !app_assoc. reflexivity.
Qed.



End ReplaceFacts.

(** ** Path segments *)

Section PathFacts.

Lemma split_not_nil (sep : N) (s : jsstring) : split sep s <> [].
Proof.
  induction s as [|c s IH]; simpl; [discriminate|].
  destruct (N.eqb c sep); [discriminate|].
  destruct (split sep s); [contradiction|discriminate].
Qed.

Lemma split_segments (sep : N) (s : jsstring) :
  Forall (fun seg => ~ In sep seg) (split sep s).
Proof.
  induction s as [|c s IH]; simpl.
  - constructor; [intros []|constructor].
  - destruct (N.eqb_spec c sep) as [->|Hc].
    + constructor; [intros []|exact IH].
    + destruct (split sep s) as [|seg segs] eqn:E.
      * constructor; [|constructor]. intros [H|[]]. congruence.
      * inversion IH as [|? ? Hseg Hsegs]; subst.
        constructor; [|exact Hsegs]. intros [H|H]; [congruence|contradiction].
Qed.

Lemma split_plain (sep : N) (s : jsstring) :
  ~ In sep s -> split sep s = [s].
Proof.
  induction s as [|c s IH]; intros H; simpl; [reflexivity|].
  destruct (N.eqb_spec c sep) as [->|Hc].
  - elim H. left; reflexivity.
  - rewrite IH; [reflexivity|]. intros Hin. apply H. right; exact Hin.
Qed.

Lemma getFilename_segment (file : jsstring) : ~ In SLASH (getFilename file).
Proof.
  unfold getFilename.
  assert (F := split_segments SLASH file).
  assert (NE := split_not_nil SLASH file).
  induction (split SLASH file) as [|seg segs IH]; [contradiction|].
  inversion F as [|? ? Hseg Hsegs]; subst.
  destruct segs as [|seg' segs']; [exact Hseg|].
  apply IH; [exact Hsegs|discriminate].
Qed.

Lemma getFilename_idem (file : jsstring) :
  getFilename (getFilename file) = getFilename file.
Proof.
  unfold getFilename at 1.
  rewrite split_plain by apply getFilename_segment. reflexivity.
Qed.

End PathFacts.

(** ** The fragment classifier *)

Section Classifier.

Lemma filter_filter {A : Type} (p q : A -> bool) (l : list A) :
  filter q (filter p l) = filter (fun x => p x && q x) l.
Proof.
  induction l as [|x l IH]; simpl; [reflexivity|].
  destruct (p x); simpl; [destruct (q x)|]; rewrite IH; reflexivity.
Qed.

Lemma filter_same {A : Type} (p q : A -> bool) (l : list A) :
  (forall x, In x l -> p x = q x) -> filter p l = filter q l.
Proof.
  induction l as [|x l IH]; intros H; simpl; [reflexivity|].
  rewrite (H x) by (left; reflexivity).
  rewrite IH; [reflexivity|]. intros y Hy. apply H. right; exact Hy.
Qed.

Lemma filter_true {A : Type} (l : list A) : filter (fun _ => true) l = l.
Proof. induction l as [|x l IH]; simpl; [|rewrite IH]; reflexivity. Qed.

(** Filtering once per element of [ms] keeps what passes every test. *)
Lemma fold_filter {A B : Type} (p : B -> A -> bool) (ms : list B) :
  forall l : list A,
    fold_left (fun kept m => filter (p m) kept) ms l
    = filter (fun f => forallb (fun m => p m f) ms) l.
Proof.
  induction ms as [|m ms IH]; intros l; simpl.
  - symmetry. apply filter_true.
  - rewrite IH, filter_filter. reflexivity.
Qed.

Lemma fold_left_same {A B : Type} (f g : A -> B -> A) (l : list B) :
  (forall a b, f a b = g a b) ->
  forall a, fold_left f l a = fold_left g l a.
Proof.
  intros H. induction l as [|b l IH]; intros a; simpl; [reflexivity|].
  rewrite H. apply IH.
Qed.

Lemma removeIncludedFiles_filter (files : list SourceFile) :
  removeIncludedFiles files
  = filter (fun f => forallb (fun g => forallb (fun m => keeps m f) (matches g)) files)
           files.
Proof.
  unfold removeIncludedFiles.
  rewrite (fold_left_same _
             (fun kept g => filter (fun f => forallb (fun m => keeps m f) (matches g)) kept)).
  - apply (fold_filter (fun g f => forallb (fun m => keeps m f) (matches g))).
  - intros kept g. apply (fold_filter keeps).
Qed.

Lemma forallb_negb_existsb {A : Type} (p : A -> bool) (l : list A) :
  forallb (fun x => negb (p x)) l = negb (existsb p l).
Proof.
  induction l as [|x l IH]; simpl; [reflexivity|].
  rewrite IH, negb_orb. reflexivity.
Qed.

End Classifier.

Section ClassifierClaims.

Lemma checkForPatternLoop_baseNamed (w : World) (files : list jsstring) :
  forall acc st, Forall baseNamed acc ->
    Forall baseNamed (fst (checkForPatternLoop w files acc st)).
Proof.
  induction files as [|file rest IH]; intros acc st Hacc; simpl; [exact Hacc|].
  destruct (readFileSync w file) as [contents|[]]; try (apply IH; exact Hacc).
  - destruct (nonEmpty (getMatches contents)); apply IH; [|exact Hacc].
    apply Forall_app. split; [exact Hacc|].
    constructor; [|constructor]. apply getFilename_idem.
  - exact Hacc.
Qed.

(** Every file [checkForPattern] hands to the classifier is named by its
    last path segment. *)
Lemma checkForPattern_baseNamed (w : World) (files : list jsstring) (st : State) :
  Forall baseNamed (fst (checkForPattern w files st)).
Proof. apply checkForPatternLoop_baseNamed. constructor. Qed.

(** C2. Every file the scanner hands over is named by its last path
    segment, and on such files [removeIncludedFiles] returns exactly the
    input files, in order, whose file name is not the last path segment of
    any referenced path of any match of any input file.  A file that is the
    target of a directive anywhere in the input is therefore dropped,
    whatever its directory: only file names are compared. *)
Theorem C2_classifier_drops_referenced_names
    (w : World) (found : list jsstring) (st : State) (files : list SourceFile) :
  Forall baseNamed (fst (checkForPattern w found st))
  /\ (Forall baseNamed files ->
      removeIncludedFiles files = filter (fun f => negb (referencedBy files f)) files
      /\ (forall f g m,
            In f files -> In g files -> In m (matches g) ->
            getFilename (m_filename m) = getFilename (filename f) ->
            ~ In f (removeIncludedFiles files))).
Proof.
  split; [apply checkForPattern_baseNamed|].
  intros Hbase.
  assert (E : removeIncludedFiles files
              = filter (fun f => negb (referencedBy files f)) files).
  { rewrite removeIncludedFiles_filter. apply filter_same.
    intros f Hf. unfold referencedBy.
    rewrite <- forallb_negb_existsb.
    assert (Hb : baseNamed f) by (rewrite Forall_forall in Hbase; auto).
    unfold baseNamed in Hb. rewrite Hb.
    clear. induction files as [|g gs IH]; simpl; [reflexivity|].
    rewrite IH. f_equal. unfold keeps. apply forallb_negb_existsb. }
  split; [exact E|].
  intros f g m Hf Hg Hm Heq Hin.
  rewrite E in Hin. apply filter_In in Hin as [_ Hneg].
  apply negb_true_iff in Hneg.
  assert (Href : referencedBy files f = true).
  { unfold referencedBy. apply existsb_exists. exists g. split; [exact Hg|].
    apply existsb_exists. exists m. split; [exact Hm|].
    apply streq_spec. exact Heq. }
  congruence.
Qed.

Lemma C2_classifier_witness :
  Forall baseNamed exScanned
  /\ removeIncludedFiles exScanned = [exPage].
Proof.
  assert (H : Forall baseNamed exScanned)
    by (repeat constructor).
  split; [exact H|].
  rewrite (proj1 (proj2 (C2_classifier_drops_referenced_names
                           worldHeader [] initialState exScanned) H)).
  reflexivity.
Defined.

End ClassifierClaims.

(** ** The scanner *)

Section Scanner.

Variable w : World.

Lemma checkForPatternLoop_skip (before after : list jsstring) (file : jsstring) :
  (forall acc st,
     checkForPatternLoop w (file :: after) acc st = checkForPatternLoop w after acc st) ->
  forall acc st,
    checkForPatternLoop w (before ++ file :: after) acc st
    = checkForPatternLoop w (before ++ after) acc st.
Proof.
  intros Hskip. induction before as [|f before IH]; intros acc st; simpl app.
  - apply Hskip.
  - simpl. destruct (readFileSync w f) as [contents|[]]; try apply IH; try reflexivity.
    destruct (nonEmpty (getMatches contents)); apply IH.
Qed.

Lemma checkForPatternLoop_readable (before rest : list jsstring) :
  Forall (fun f => readFileSync w f <> ReadErr EISDIR) before ->
  forall acc st,
    checkForPatternLoop w (before ++ rest) acc st
    = checkForPatternLoop w rest (fst (checkForPatternLoop w before acc st)) st
    /\ snd (checkForPatternLoop w before acc st) = st.
Proof.
  induction 1 as [|f before Hf _ IH]; intros acc st; simpl app.
  - split; reflexivity.
  - simpl. destruct (readFileSync w f) as [contents|[]]; try apply IH.
    + destruct (nonEmpty (getMatches contents)); apply IH.
    + congruence.
Qed.

(** C9. A candidate that can be read and holds no directive leaves no trace
    in the scan: [checkForPattern], and with it the whole run (the files
    classified, resolved and written, and both counters), are what they
    would be had the candidate not been found at all. *)
Theorem C9_candidate_without_directive_is_dropped
    (cmd : Commander) (fuel : nat) (before after : list jsstring)
    (file contents : jsstring) (st : State) :
  readFileSync w file = ReadOk contents ->
  getMatches contents = [] ->
  checkForPattern w [file] st = ([], st)
  /\ checkForPattern w (before ++ file :: after) st
     = checkForPattern w (before ++ after) st
  /\ init w cmd fuel (before ++ file :: after) st
     = init w cmd fuel (before ++ after) st.
Proof.
  intros Hread Hnone.
  assert (Hskip : forall rest acc st',
             checkForPatternLoop w (file :: rest) acc st'
             = checkForPatternLoop w rest acc st').
  { intros rest acc st'. simpl. rewrite Hread, Hnone. reflexivity. }
  assert (Hscan : checkForPattern w (before ++ file :: after) st
                  = checkForPattern w (before ++ after) st).
  { unfold checkForPattern. apply checkForPatternLoop_skip. apply Hskip. }
  split; [|split].
  - unfold checkForPattern. rewrite Hskip. reflexivity.
  - exact Hscan.
  - unfold init. rewrite Hscan.
    replace (nonEmpty (before ++ file :: after)) with true
      by (destruct before; reflexivity).
    destruct (before ++ after) as [|f rest] eqn:E; [|reflexivity].
    reflexivity.
Qed.

End Scanner.

Lemma C9_candidate_witness :
  init worldHeader defaultCommander 2
       ([lit "src/index.html"] ++ lit "src/partials/header.html" :: []) initialState
  = init worldHeader defaultCommander 2 ([lit "src/index.html"] ++ []) initialState.
Proof.
  apply (C9_candidate_without_directive_is_dropped
           worldHeader defaultCommander 2 [lit "src/index.html"] []
           (lit "src/partials/header.html") (lit "<h1>Hi</h1>")
           initialState); reflexivity.
Defined.

Section ScannerFailures.

Variable w : World.

(** C6, as the code has it.  When reading a candidate fails with [EISDIR]
    (it is a directory), the error is logged and the scan of the batch stops
    there: what was gathered before it is returned and no later candidate is
    scanned.  A read that fails with any other code is skipped without a
    word and the scan goes on with the next candidate. *)
Theorem C6_only_a_directory_stops_the_scan
    (before after : list jsstring) (file : jsstring) (st : State) :
  (Forall (fun f => readFileSync w f <> ReadErr EISDIR) before ->
   readFileSync w file = ReadErr EISDIR ->
   fst (checkForPattern w (before ++ file :: after) st)
   = fst (checkForPattern w before st)
   /\ console (snd (checkForPattern w (before ++ file :: after) st))
      = console st ++ [LogCannotReadSourceDirectory])
  /\ (forall code,
        code <> EISDIR ->
        readFileSync w file = ReadErr code ->
        checkForPattern w (before ++ file :: after) st
        = checkForPattern w (before ++ after) st).
Proof.
  split.
  - intros Hbefore Hdir. unfold checkForPattern.
    destruct (checkForPatternLoop_readable w before (file :: after) Hbefore [] st)
      as [-> _].
    simpl. rewrite Hdir. split; reflexivity.
  - intros code Hcode Hread. unfold checkForPattern.
    apply checkForPatternLoop_skip. intros acc st'. simpl. rewrite Hread.
    destruct code; [contradiction|reflexivity..].
Qed.

End ScannerFailures.

Lemma C6_scan_witness :
  (fst (checkForPattern worldUnreadable
          ([lit "src/index.html"] ++ lit "src/dir.html" :: [lit "src/index.html"])
          initialState)
   = fst (checkForPattern worldUnreadable [lit "src/index.html"] initialState))
  /\ checkForPattern worldUnreadable
       ([] ++ lit "src/locked.html" :: [lit "src/index.html"]) initialState
     = checkForPattern worldUnreadable ([] ++ [lit "src/index.html"]) initialState.
Proof.
  destruct (C6_only_a_directory_stops_the_scan worldUnreadable
              [lit "src/index.html"] [lit "src/index.html"]
              (lit "src/dir.html") initialState) as [Hdir _].
  destruct (C6_only_a_directory_stops_the_scan worldUnreadable
              [] [lit "src/index.html"]
              (lit "src/locked.html") initialState) as [_ Hother].
  split.
  - apply Hdir; [|reflexivity]. repeat constructor. discriminate.
  - apply (Hother EACCES); [discriminate|reflexivity].
Defined.

(** A candidate that cannot be read for lack of permission: nothing is
    logged, no counter moves, and the candidate after it is scanned. *)
Lemma C6_unreadable_candidate_does_not_stop_the_scan :
  readFileSync worldUnreadable (lit "src/locked.html") = ReadErr EACCES
  /\ checkForPattern worldUnreadable
       [lit "src/locked.html"; lit "src/index.html"] initialState
     = ([mkSource (lit "src") (lit "index.html")
           [mkMatch (lit "@@include('partials/header.html')")
                    (lit "partials/header.html")]],
        initialState).
Proof. split; reflexivity. Qed.

(** ** The resolver, on small cases *)

(** C1, evaluated.  The page holds one directive whose file is missing.
    In the default recursive mode the directive gives way to the empty
    string, whether the placeholder is asked for or not: the message
    [File not found: missing.html] is logged and counted once, and never
    reaches the output. *)
Theorem C1_missing_fragment_leaves_no_placeholder :
  doFileInclude worldMissing defaultCommander 2 exRoot true initialState
  = Some (lit "<p></p>",
          mkState 0 1 [LogFileNotFound (lit "File not found: missing.html")] [])
  /\ doFileInclude worldMissing defaultCommander 2 exRoot false initialState
     = Some (lit "<p></p>",
             mkState 0 1 [LogFileNotFound (lit "File not found: missing.html")] []).
Proof. split; reflexivity. Qed.

Section ResolverBasics.

Variable w : World.
Variable cmd : Commander.

(** C8. A file that can be read and whose content holds no directive is
    resolved to that very content, with the counters and the log untouched. *)
Theorem C8_no_directive_content_unchanged
    (fuel : nat) (file : Target) (insertNotFound : bool) (st : State)
    (contents : jsstring) :
  readFileSync w (slashed (t_directory file) (t_filename file)) = ReadOk contents ->
  getMatches contents = [] ->
  doFileInclude w cmd (S fuel) file insertNotFound st = Some (contents, st).
Proof.
  intros Hread Hnone. simpl. unfold getFileContents.
  rewrite Hread, Hnone. reflexivity.
Qed.

(** C7. The path [writeFiles] writes to, below the destination, is the
    file's [filename] when [omitSourceParent] is true, which is the default,
    and its [directory] joined with its [filename] by a slash otherwise; a
    resolved file whose write succeeds is recorded under exactly that path.
    For the root of directory [src/pages] and filename [pages/index.html]
    the two paths are [pages/index.html] and [src/pages/pages/index.html]. *)
Theorem C7_output_path (file : SourceFile) :
  omitSourceParent defaultCommander = true
  /\ outputPath cmd file
     = (if omitSourceParent cmd then filename file
        else directory file ++ lit "/" ++ filename file)
  /\ outputPath (mkCommander (includeRecursive cmd) true (destination cmd)) exPageSource
     = lit "pages/index.html"
  /\ outputPath (mkCommander (includeRecursive cmd) false (destination cmd)) exPageSource
     = lit "src/pages/pages/index.html"
  /\ (forall fuel st st1 contents,
        doFileInclude w cmd fuel (targetOfSource file) true st = Some (contents, st1) ->
        writeSucceeds w (slashed (destination cmd) (outputPath cmd file)) = true ->
        writeFiles w cmd fuel [file] st
        = Some (recordWrite (slashed (destination cmd) (outputPath cmd file))
                            contents st1)).
Proof.
  repeat (split; [reflexivity|]).
  intros fuel st st1 contents Hres Hwrite.
  simpl. rewrite Hres, Hwrite. reflexivity.
Qed.

End ResolverBasics.

Lemma C8_no_directive_witness :
  doFileInclude worldHeader defaultCommander 1 exHeaderTarget true initialState
  = Some (lit "<h1>Hi</h1>", initialState).
Proof.
  apply (C8_no_directive_content_unchanged worldHeader defaultCommander 0
           exHeaderTarget true initialState (lit "<h1>Hi</h1>")); reflexivity.
Defined.

Lemma C7_output_path_witness :
  writeFiles worldHeader defaultCommander 2 [exPage] initialState
  = Some (recordWrite (lit "build/index.html") (lit "<h1>Hi</h1>") initialState).
Proof.
  apply (C7_output_path worldHeader defaultCommander exPage); reflexivity.
Defined.

(** ** The directive matcher *)

Section PatternFacts.

Lemma oneLine_app (p q : jsstring) :
  oneLine (p ++ q) <-> oneLine p /\ oneLine q.
Proof. unfold oneLine. rewrite existsb_app, orb_false_iff. reflexivity. Qed.

Lemma oneLine_CLOSE : oneLine CLOSE.
Proof. reflexivity. Qed.

Lemma lineOf_oneLine (s : jsstring) : oneLine (lineOf s).
Proof.
  unfold oneLine. induction s as [|c s IH]; simpl; [reflexivity|].
  destruct (lineTerminator c) eqn:E; simpl; [reflexivity|].
  rewrite E, IH. reflexivity.
Qed.

Lemma lineOf_prefix (s : jsstring) : exists rest, s = lineOf s ++ rest.
Proof.
  induction s as [|c s [rest IH]]; simpl.
  - exists []. reflexivity.
  - destruct (lineTerminator c).
    + exists (c :: s). reflexivity.
    + exists rest. simpl. f_equal. exact IH.
Qed.

Lemma lineOf_app (p r : jsstring) :
  oneLine p -> lineOf (p ++ r) = p ++ lineOf r.
Proof.
  unfold oneLine. induction p as [|c p IH]; simpl; intros H; [reflexivity|].
  apply orb_false_iff in H as [Hc Hp]. rewrite Hc, IH by exact Hp. reflexivity.
Qed.

Lemma lastClose_cons (c : N) (l : jsstring) :
  lastClose (c :: l)
  = match lastClose l with
    | Some k => Some (S k)
    | None =>
        match stripPrefix CLOSE (c :: l) with
        | Some _ => Some 0
        | None => None
        end
    end.
Proof. reflexivity. Qed.

Lemma lastClose_Some (l : jsstring) :
  forall k, lastClose l = Some k -> exists r, skipn k l = CLOSE ++ r.
Proof.
  induction l as [|c l IH]; intros k; [discriminate|].
  rewrite lastClose_cons. destruct (lastClose l) as [j|].
  - intros H; injection H as <-. simpl. apply IH. reflexivity.
  - destruct (stripPrefix CLOSE (c :: l)) as [r|] eqn:E; [|discriminate].
    intros H; injection H as <-. apply stripPrefix_Some in E.
    exists r. exact E.
Qed.

Lemma lastClose_max (p r : jsstring) :
  exists k, lastClose (p ++ CLOSE ++ r) = Some k /\ length p <= k.
Proof.
  induction p as [|c p (k & Hk & Hle)].
  - simpl app. change (CLOSE ++ r) with (QUOTE :: RPAR :: r).
    rewrite lastClose_cons. destruct (lastClose (_ :: r)) as [j|].
    + exists (S j). split; [reflexivity|simpl; lia].
    + exists 0. split; [reflexivity|simpl; lia].
  - exists (S k). split; [|simpl; lia].
    change (lastClose (c :: (p ++ CLOSE ++ r)) = Some (S k)).
    rewrite lastClose_cons, Hk. reflexivity.
Qed.

Lemma firstn_prefix {A : Type} (k : nat) (l rest : list A) :
  k <= length l -> firstn k (l ++ rest) = firstn k l.
Proof.
  intros H. rewrite firstn_app.
  replace (k - length l) with 0 by lia. simpl. apply app_nil_r.
Qed.

Lemma skipn_decompose {A : Type} (k : nat) (l r : list A) :
  skipn k l = r -> k <= length l -> l = firstn k l ++ r.
Proof. intros <- _. symmetry. apply firstn_skipn. Qed.

Lemma existsb_firstn {A : Type} (f : A -> bool) (k : nat) (l : list A) :
  existsb f l = false -> existsb f (firstn k l) = false.
Proof.
  intros H. rewrite <- (firstn_skipn k l), existsb_app in H.
  apply orb_false_iff in H as [H _]. exact H.
Qed.

(** What a match at the start of [s] is: a directive whose path stays on
    the line and is the longest one that does. *)
Lemma matchHere_Some (s whole captured : jsstring) :
  matchHere s = Some (whole, captured) ->
  whole = directive captured
  /\ oneLine captured
  /\ (exists rest, s = whole ++ rest)
  /\ (forall p r, oneLine p -> s = directive p ++ r -> length p <= length captured).
Proof.
  unfold matchHere.
  destruct (stripPrefix OPEN s) as [rest0|] eqn:Eopen; [|discriminate].
  apply stripPrefix_Some in Eopen.
  destruct (lastClose (lineOf rest0)) as [k|] eqn:Eclose; [|discriminate].
  cbv zeta. intros H; injection H as <- <-.
  destruct (lastClose_Some _ _ Eclose) as [r Hr].
  destruct (lineOf_prefix rest0) as [tl Htl].
  assert (Hk : k + 2 <= length (lineOf rest0)).
  { apply (f_equal (@length N)) in Hr. rewrite length_skipn, length_app in Hr.
    simpl in Hr. lia. }
  assert (Hcap : firstn k rest0 = firstn k (lineOf rest0)).
  { rewrite Htl at 1. apply firstn_prefix. lia. }
  assert (Hline : lineOf rest0 = firstn k rest0 ++ CLOSE ++ r).
  { rewrite Hcap. apply skipn_decompose; [exact Hr|lia]. }
  split; [reflexivity|]. split; [|split].
  - rewrite Hcap. apply existsb_firstn. apply lineOf_oneLine.
  - exists (r ++ tl). rewrite Eopen. rewrite Htl at 1. rewrite Hline.
    simpl. rewrite <- ?app_assoc. reflexivity.
  - intros p r' Hp Hs. unfold directive in Hs. rewrite Eopen in Hs.
    rewrite <- app_assoc in Hs. apply app_inv_head in Hs.
    assert (Hl : lineOf rest0 = p ++ CLOSE ++ lineOf r').
    { rewrite Hs, <- app_assoc, lineOf_app by exact Hp.
      rewrite (lineOf_app CLOSE r' oneLine_CLOSE). reflexivity. }
    destruct (lastClose_max p (lineOf r')) as (k' & Hk' & Hle).
    rewrite <- Hl, Eclose in Hk'. injection Hk' as <-.
    rewrite length_firstn. rewrite Htl, length_app. lia.
Qed.

Lemma matchHere_None (s : jsstring) :
  matchHere s = None -> ~ startsDirective s.
Proof.
  intros H (p & r & Hp & Hs). unfold matchHere in H.
  unfold directive in Hs. rewrite <- app_assoc in Hs.
  rewrite Hs, stripPrefix_app in H.
  rewrite <- app_assoc, lineOf_app in H by exact Hp.
  rewrite (lineOf_app CLOSE r oneLine_CLOSE) in H.
  destruct (lastClose_max p (lineOf r)) as (k & Hk & _).
  rewrite Hk in H. discriminate.
Qed.

End PatternFacts.

Section MatcherFacts.

Lemma searchFrom_eq (s : jsstring) (i : nat) :
  searchFrom s i
  = match matchHere s with
    | Some m => Some (i, m)
    | None =>
        match s with
        | [] => None
        | _ :: s' => searchFrom s' (S i)
        end
    end.
Proof. destruct s; reflexivity. Qed.

Lemma searchFrom_Some (s : jsstring) :
  forall i j whole captured,
    searchFrom s i = Some (j, (whole, captured)) ->
    exists g rest,
      s = g ++ whole ++ rest
      /\ j = i + length g
      /\ matchHere (whole ++ rest) = Some (whole, captured)
      /\ (forall k, k < length g -> matchHere (skipn k s) = None).
Proof.
  induction s as [|c s IH]; intros i j whole captured; rewrite searchFrom_eq.
  - destruct (matchHere []) as [m|] eqn:E; [|discriminate].
    intros H; injection H as <- ->.
    destruct (matchHere_Some _ _ _ E) as (_ & _ & [rest Hrest] & _).
    exists [], rest. simpl. rewrite <- Hrest.
    repeat split; [lia|exact E|intros; lia].
  - destruct (matchHere (c :: s)) as [m|] eqn:E.
    + intros H; injection H as <- ->.
      destruct (matchHere_Some _ _ _ E) as (_ & _ & [rest Hrest] & _).
      exists [], rest. simpl app. rewrite <- Hrest.
      repeat split; [simpl; lia|exact E|simpl; intros; lia].
    + intros H. destruct (IH _ _ _ _ H) as (g & rest & Hs & Hj & Hm & Hnone).
      exists (c :: g), rest. simpl app. rewrite <- Hs.
      repeat split; [simpl; lia|exact Hm|].
      intros [|k] Hk; simpl; [exact E|]. apply Hnone. simpl in Hk. lia.
Qed.

Lemma searchFrom_None (s : jsstring) :
  forall i, searchFrom s i = None -> forall k, matchHere (skipn k s) = None.
Proof.
  induction s as [|c s IH]; intros i; rewrite searchFrom_eq.
  - destruct (matchHere []) eqn:E; [discriminate|].
    intros _ k. rewrite skipn_nil. exact E.
  - destruct (matchHere (c :: s)) eqn:E; [discriminate|].
    intros H [|k]; simpl; [exact E|]. apply (IH _ H).
Qed.

Lemma directive_length (p : jsstring) : length (directive p) = 13 + length p.
Proof. unfold directive. rewrite !length_app. simpl. lia. Qed.

Lemma exec_in_range (data : jsstring) (lastIndex : nat) :
  lastIndex <= length data ->
  exec data lastIndex
  = match searchFrom (skipn lastIndex data) lastIndex with
    | Some (i, (whole, captured)) => (Some (i, (whole, captured)), i + length whole)
    | None => (None, 0)
    end.
Proof.
  intros H. unfold exec.
  replace (length data <? lastIndex) with false
    by (symmetry; apply Nat.ltb_ge; exact H).
  reflexivity.
Qed.

(** A round of the loop that finds no match ends it. *)
Lemma getMatchesLoop_end (data : jsstring) (lastIndex fuel : nat)
    (found : list IncMatch) :
  lastIndex <= length data ->
  searchFrom (skipn lastIndex data) lastIndex = None ->
  getMatchesLoop (S fuel) data lastIndex found = Some (found, 0).
Proof.
  intros Hle Hnone. simpl. rewrite exec_in_range by exact Hle.
  rewrite Hnone. reflexivity.
Qed.

(** The loop of [getMatches], entered at [lastIndex]: it ends within
    its bound, leaves the pattern at index 0, and returns the matches of a
    layout of the rest of [data] that is leftmost and greedy. *)
Lemma getMatchesLoop_layout (data : jsstring) :
  forall n lastIndex,
    length data - lastIndex <= n ->
    lastIndex <= length data ->
    exists gs tail,
      skipn lastIndex data = assemble gs tail
      /\ leftmostGreedy gs tail
      /\ length gs <= length data - lastIndex
      /\ (forall fuel found,
            length gs < fuel ->
            getMatchesLoop fuel data lastIndex found = Some (found ++ map snd gs, 0)).
Proof.
  induction n as [|n IH]; intros lastIndex Hn Hle;
    destruct (searchFrom (skipn lastIndex data) lastIndex)
      as [[j [whole captured]]|] eqn:S0.
  - destruct (searchFrom_Some _ _ _ _ _ S0) as (g & rest & Hs & _ & Hm & _).
    destruct (matchHere_Some _ _ _ Hm) as (Hwhole & _).
    apply (f_equal (@length N)) in Hs.
    rewrite length_skipn, !length_app, Hwhole, directive_length in Hs. lia.
  - exists [], (skipn lastIndex data).
    split; [reflexivity|]. split; [|split; [simpl; lia|]].
    + intros k. apply matchHere_None. apply (searchFrom_None _ _ S0).
    + intros [|fuel] found Hf; [simpl in Hf; lia|].
      rewrite app_nil_r. apply getMatchesLoop_end; assumption.
  - destruct (searchFrom_Some _ _ _ _ _ S0) as (g & rest & Hs & Hj & Hm & Hnone).
    destruct (matchHere_Some _ _ _ Hm) as (Hwhole & Hline & _ & Hgreedy).
    assert (Hlen : length (skipn lastIndex data)
                   = length g + length whole + length rest)
      by (rewrite Hs, !length_app; lia).
    rewrite length_skipn in Hlen.
    assert (Hw : length whole = 13 + length captured)
      by (rewrite Hwhole; apply directive_length).
    assert (Hrest : skipn (j + length whole) data = rest).
    { rewrite Hj.
      replace (lastIndex + length g + length whole)
        with ((length g + length whole) + lastIndex) by lia.
      rewrite <- skipn_skipn, Hs, app_assoc, skipn_app, skipn_all2
        by (rewrite length_app; lia).
      rewrite length_app, Nat.sub_diag. reflexivity. }
    destruct (IH (j + length whole)) as (gs & tail & Hlay & Hlg & Hcount & Hloop);
      [lia|lia|].
    rewrite Hrest in Hlay.
    exists ((g, mkMatch whole captured) :: gs), tail.
    split; [|split; [|split]].
    + simpl. rewrite <- Hlay. exact Hs.
    + simpl. rewrite <- Hlay. repeat split; try assumption.
      intros k Hk. apply matchHere_None. rewrite <- Hs. apply Hnone. exact Hk.
    + simpl. lia.
    + intros [|fuel] found Hf; [simpl in Hf; lia|].
      simpl. rewrite exec_in_range by exact Hle.
      rewrite S0. rewrite Hloop by (simpl in Hf; lia).
      rewrite <- app_assoc. reflexivity.
  - exists [], (skipn lastIndex data).
    split; [reflexivity|]. split; [|split; [simpl; lia|]].
    + intros k. apply matchHere_None. apply (searchFrom_None _ _ S0).
    + intros [|fuel] found Hf; [simpl in Hf; lia|].
      rewrite app_nil_r. apply getMatchesLoop_end; assumption.
Qed.

(** [getMatches] never runs out of rounds and leaves [lastIndex] at 0. *)
Lemma getMatchesFrom_total (data : jsstring) :
  getMatchesFrom data 0 = Some (getMatches data, 0).
Proof.
  unfold getMatches.
  destruct (getMatchesLoop_layout data (length data) 0) as (gs & tail & _ & _ & Hc & Hloop);
    [lia|lia|].
  unfold getMatchesFrom. rewrite Hloop by lia. reflexivity.
Qed.

Lemma getMatches_layout (data : jsstring) :
  exists gs tail,
    getMatches data = map snd gs
    /\ data = assemble gs tail
    /\ leftmostGreedy gs tail.
Proof.
  destruct (getMatchesLoop_layout data (length data) 0)
    as (gs & tail & Hlay & Hlg & Hc & Hloop); [lia|lia|].
  exists gs, tail. split; [|split; [exact Hlay|exact Hlg]].
  unfold getMatches, getMatchesFrom. rewrite Hloop by lia. reflexivity.
Qed.



End MatcherFacts.

(** C4, as the code has it.  For every content the matcher returns, and
    leaves the pattern at index 0 (it has no other state): its result lists,
    from left to right and without overlap, the matches of a layout of the
    content.  Each match is a directive text around its captured path, which
    is taken verbatim and holds no line terminator; no directive starts in
    the text before a match, nor anywhere in the tail (which is the whole
    content when there is no match); and each match is greedy: no directive
    with a longer one-line path starts where it starts, so it runs to the
    last closing quote and parenthesis of its line. *)
Theorem C4_matcher_is_leftmost_and_greedy (data : jsstring) :
  exists gs tail,
    getMatchesFrom data 0 = Some (map snd gs, 0)
    /\ getMatches data = map snd gs
    /\ data = assemble gs tail
    /\ leftmostGreedy gs tail
    /\ (getMatches data = [] <-> forall k, ~ startsDirective (skipn k data)).
Proof.
  destruct (getMatches_layout data) as (gs & tail & Hm & Hd & Hlg).
  exists gs, tail. rewrite getMatchesFrom_total, Hm.
  repeat split; try assumption.
  - intros Hnil. destruct gs; [|discriminate]. simpl in Hd, Hlg.
    rewrite Hd. exact Hlg.
  - intros Hnone. destruct gs as [|[g m] gs]; [reflexivity|].
    destruct Hlg as (Hs & Hline & _). elim (Hnone (length g)).
    exists (m_filename m), (assemble gs tail). split; [exact Hline|].
    rewrite Hd. simpl. rewrite skipn_app, skipn_all, Nat.sub_diag, Hs.
    reflexivity.
Qed.

Lemma C4_matcher_witness :
  exists gs tail,
    getMatchesFrom exTwoOnALine 0 = Some (map snd gs, 0)
    /\ getMatches exTwoOnALine = map snd gs
    /\ exTwoOnALine = assemble gs tail
    /\ leftmostGreedy gs tail
    /\ (getMatches exTwoOnALine = []
        <-> forall k, ~ startsDirective (skipn k exTwoOnALine)).
Proof. exact (C4_matcher_is_leftmost_and_greedy exTwoOnALine). Defined.

(** Two directives on one line are two occurrences of the grammar, one
    after the other, yet the matcher returns a single match: the whole line,
    with everything between the first opening quote and the last closing
    quote as its path. *)
Lemma C4_two_directives_on_a_line_are_one_match :
  exTwoOnALine = directive (lit "a") ++ directive (lit "b")
  /\ getMatches exTwoOnALine
     = [mkMatch exTwoOnALine (lit "a')@@include('b")].
Proof. split; reflexivity. Qed.

(** ** The loop over the matches *)

Section ResolverLoop.

Variable fetch : IncMatch -> State -> option (option jsstring * State).

(** When every directive is its own first occurrence at its turn, the loop
    substitutes position by position. *)
Lemma includeLoop_splice (gs : list (jsstring * IncMatch)) :
  forall rs tail done st st',
    Fetched fetch (map snd gs) rs st st' ->
    forallb patternFree rs = true ->
    ownFirst done gs rs ->
    includeLoop fetch (map snd gs) (done ++ assemble gs tail) st
    = Some (Finished, done ++ splice gs rs tail, st').
Proof.
  induction gs as [|[g m] gs IH]; intros rs tail done st st' HF HD HO.
  - inversion HF; subst. reflexivity.
  - simpl map in HF. inversion HF as [|? ? r rs' ? st1 ? Hfetch Hrest]; subst.
    destruct HO as [Hidx Hown]. simpl in HD. apply andb_true_iff in HD as [Hr Hrs].
    rewrite app_assoc in Hidx.
    cbn [map snd includeLoop assemble splice]. rewrite Hfetch.
    replace (done ++ g ++ m_string m ++ assemble gs tail)
      with ((done ++ g) ++ m_string m ++ assemble gs tail)
      by (rewrite <- app_assoc; reflexivity).
    rewrite (replace_own_first _ _ _ _ Hidx Hr).
    replace ((done ++ g) ++ r ++ assemble gs tail)
      with ((done ++ g ++ r) ++ assemble gs tail)
      by (rewrite <- !app_assoc; reflexivity).
    rewrite (IH rs' tail (done ++ g ++ r) st1 st' Hrest Hrs Hown).
    rewrite <- !app_assoc. reflexivity.
Qed.

(** When fetching a match fails, the loop stops with that directive and
    all that follows it still in place. *)
Lemma includeLoop_caught (gs : list (jsstring * IncMatch)) :
  forall rs done st st1 st2 g m after rest,
    Fetched fetch (map snd gs) rs st st1 ->
    fetch m st1 = Some (None, st2) ->
    exists kept,
      includeLoop fetch (map snd gs ++ m :: rest)
                  (done ++ assemble gs (g ++ m_string m ++ after)) st
      = Some (Caught, kept ++ m_string m ++ after, st2).
Proof.
  induction gs as [|[g1 m1] gs IH]; intros rs done st st1 st2 g m after rest HF Hm.
  - inversion HF; subst. exists (done ++ g).
    cbn [map app includeLoop assemble]. rewrite Hm, <- app_assoc. reflexivity.
  - simpl map in HF. inversion HF as [|? ? r rs' ? st' ? Hfetch Hrest]; subst.
    cbn [map snd app includeLoop assemble]. rewrite Hfetch.
    destruct (replace_keeps_suffix (done ++ g1) (m_string m1)
                (assemble gs (g ++ m_string m ++ after)) r) as [kept Hkept].
    rewrite <- app_assoc in Hkept. rewrite Hkept.
    apply (IH rs' kept st' st1 st2 g m after rest Hrest Hm).
Qed.

End ResolverLoop.

Section Resolver.

Variable w : World.
Variable cmd : Commander.

Lemma doFileInclude_eq (fuel : nat) (file : Target) (insertNotFound : bool) (st : State) :
  doFileInclude w cmd (S fuel) file insertNotFound st
  = match readFileSync w (slashed (t_directory file) (t_filename file)) with
    | ReadErr _ => Some (notFound file insertNotFound [] st)
    | ReadOk contents =>
        match includeLoop (fetchMatch w cmd (doFileInclude w cmd fuel) (matchDirectoryOf file))
                          (getMatches contents) contents st with
        | None => None
        | Some (Finished, contents', st') => Some (contents', st')
        | Some (Caught, contents', st') => Some (notFound file insertNotFound contents' st')
        end
    end.
Proof. reflexivity. Qed.

(** Without recursion the matches are fetched by reading the files. *)
Lemma fetched_raw (resolve : Target -> bool -> State -> option (jsstring * State))
    (dir : jsstring) (gs : list (jsstring * IncMatch)) (rs : list jsstring) (st : State) :
  includeRecursive cmd = false ->
  Forall2 (fun gm r => readFileSync w (slashed dir (m_filename (snd gm))) = ReadOk r) gs rs ->
  Fetched (fetchMatch w cmd resolve dir) (map snd gs) rs st st.
Proof.
  intros Hmode. induction 1 as [|[g m] r gs rs Hread _ IH]; simpl.
  - constructor.
  - econstructor; [|exact IH].
    unfold fetchMatch, getFileContents. rewrite Hmode. simpl in Hread.
    rewrite Hread. reflexivity.
Qed.

(** C10. Without recursion, when the file of a directive cannot be read,
    the loop over the matches of the containing file ends there.  The
    returned string is what the earlier replacements left ([kept]), followed
    by the failing directive and by everything that followed it in the file,
    later directives included, none of whose files is read; only the
    [catch] block touches it, replacing the text of the [string] property
    (or [undefined]) by the not-found message when asked to.  The error
    counter goes up by one, however many of the later files are missing. *)
Theorem C10_raw_inclusion_stops_at_first_unreadable_file
    (fuel : nat) (file : Target) (insertNotFound : bool) (st : State)
    (gs : list (jsstring * IncMatch)) (g after : jsstring) (m : IncMatch)
    (later : list IncMatch) (rs : list jsstring) (code : ErrCode) :
  includeRecursive cmd = false ->
  readFileSync w (slashed (t_directory file) (t_filename file))
  = ReadOk (assemble gs (g ++ m_string m ++ after)) ->
  getMatches (assemble gs (g ++ m_string m ++ after)) = map snd gs ++ m :: later ->
  Forall2 (fun gm r =>
             readFileSync w (slashed (matchDirectoryOf file) (m_filename (snd gm)))
             = ReadOk r) gs rs ->
  readFileSync w (slashed (matchDirectoryOf file) (m_filename m)) = ReadErr code ->
  exists kept out st',
    doFileInclude w cmd (S fuel) file insertNotFound st = Some (out, st')
    /\ out = (if insertNotFound
              then replace (kept ++ m_string m ++ after) (toString (t_string file))
                           (lit "File not found: " ++ t_filename file)
              else kept ++ m_string m ++ after)
    /\ errors st' = S (errors st)
    /\ written st' = written st.
Proof.
  intros Hmode Hread Hmatches Hfetched Hfail.
  assert (Hm : fetchMatch w cmd (doFileInclude w cmd fuel) (matchDirectoryOf file) m st
               = Some (None, st)).
  { unfold fetchMatch, getFileContents. rewrite Hmode, Hfail. reflexivity. }
  destruct (includeLoop_caught _ gs rs [] st st st g m after later
              (fetched_raw _ _ gs rs st Hmode Hfetched) Hm) as [kept Hloop].
  exists kept. rewrite doFileInclude_eq, Hread, Hmatches.
  simpl app in Hloop. rewrite Hloop.
  eexists _, _. split; [reflexivity|]. split; [reflexivity|]. split; reflexivity.
Qed.

End Resolver.

Lemma C10_raw_inclusion_witness :
  exists kept out st',
    doFileInclude worldGaps rawCommander 1 exRoot true initialState = Some (out, st')
    /\ out = (if true
              then replace (kept ++ lit "@@include('missing')"
                                 ++ (LF ++ lit "C@@include('gone')"))
                           (lit "undefined") (lit "File not found: " ++ lit "index.html")
              else kept ++ lit "@@include('missing')" ++ (LF ++ lit "C@@include('gone')"))
    /\ errors st' = 1
    /\ written st' = 0.
Proof.
  apply (C10_raw_inclusion_stops_at_first_unreadable_file
           worldGaps rawCommander 0 exRoot true initialState
           [(lit "A", mkMatch dirA (lit "a"))] (LF ++ lit "B")
           (LF ++ lit "C@@include('gone')")
           (mkMatch (lit "@@include('missing')") (lit "missing"))
           [mkMatch (lit "@@include('gone')") (lit "gone")]
           [lit "x"] ENOENT);
    try reflexivity.
  repeat constructor.
Defined.

(** ** Substitution, position by position *)

Section Positional.

(** What [replace] does with a replacement that holds no pattern: nothing
    when the text is absent, and otherwise it puts the replacement in the
    place of the leftmost occurrence, and of that one only. *)
Lemma replace_first_occurrence (c search r : jsstring) :
  patternFree r = true ->
  (~ occursIn search c /\ replace c search r = c)
  \/ (exists u v,
        c = u ++ search ++ v
        /\ (forall u' v', c = u' ++ search ++ v' -> length u <= length u')
        /\ replace c search r = u ++ r ++ v).
Proof.
  intros Hr. destruct (indexOf search c) as [k|] eqn:E.
  - right. exists (firstn k c), (skipn (k + length search) c).
    assert (Hk := indexOf_length _ _ _ E).
    split; [apply indexOf_Some; exact E|]. split.
    + intros u' v' Hc. rewrite length_firstn.
      assert (L := indexOf_least _ _ _ E u' v' Hc). lia.
    + unfold replace. rewrite E.
      rewrite getSubstitution_patternFree by exact Hr. reflexivity.
  - left. split; [apply indexOf_None; exact E|apply replace_absent; exact E].
Qed.












End Positional.

Section ResolverSubstitution.

Variable w : World.
Variable cmd : Commander.

Lemma skipn_at {A : Type} (x y : list A) : skipn (length x) (x ++ y) = y.
Proof. rewrite skipn_app, skipn_all, Nat.sub_diag. reflexivity. Qed.

Lemma leftmostTurn_replace (c s r : jsstring) :
  patternFree r = true -> leftmostTurn c s r (replace c s r).
Proof.
  intros Hr. destruct (replace_first_occurrence c s r Hr) as [[Habs E]|(u & v & Hc & Hmin & E)].
  - left. split; assumption.
  - right. exists u, v. repeat split; assumption.
Qed.

Lemma app_same_length {A : Type} (u1 u2 v1 v2 : list A) :
  u1 ++ v1 = u2 ++ v2 -> length u1 = length u2 -> u1 = u2 /\ v1 = v2.
Proof.
  revert u2. induction u1 as [|x u1 IH]; intros [|y u2] H L; try discriminate.
  - split; [reflexivity|exact H].
  - simpl in H, L. injection H as -> H. injection L as L.
    destruct (IH u2 H L) as [-> ->]. split; reflexivity.
Qed.

Lemma leftmostTurn_unique (c s r c1 c2 : jsstring) :
  leftmostTurn c s r c1 -> leftmostTurn c s r c2 -> c1 = c2.
Proof.
  intros [[A1 ->]|(u1 & v1 & H1 & M1 & ->)] [[A2 ->]|(u2 & v2 & H2 & M2 & ->)].
  - reflexivity.
  - elim A1. exists u2, v2. exact H2.
  - elim A2. exists u1, v1. exact H1.
  - assert (L : length u1 = length u2).
    { assert (L1 := M1 u2 v2 H2). assert (L2 := M2 u1 v1 H1). lia. }
    assert (E : u1 ++ s ++ v1 = u2 ++ s ++ v2) by congruence.
    destruct (app_same_length _ _ _ _ E L) as [-> E'].
    apply app_inv_head in E'. rewrite E'. reflexivity.
Qed.

Lemma Turns_unique (ms : list IncMatch) (rs : list jsstring) (c o1 o2 : jsstring) :
  Turns ms rs c o1 -> Turns ms rs c o2 -> o1 = o2.
Proof.
  intros H1. revert o2. induction H1 as [c|m ms r rs c c1 c' T _ IH]; intros o2 H2.
  - inversion H2; subst. reflexivity.
  - inversion H2 as [|? ? ? ? ? c1' ? T' H2']; subst.
    rewrite <- (leftmostTurn_unique _ _ _ _ _ T T') in H2'. apply IH. exact H2'.
Qed.

Lemma Turns_app (ms1 ms2 : list IncMatch) (rs1 rs2 : list jsstring) (c c1 c2 : jsstring) :
  Turns ms1 rs1 c c1 -> Turns ms2 rs2 c1 c2 -> Turns (ms1 ++ ms2) (rs1 ++ rs2) c c2.
Proof.
  intros H1 H2. induction H1 as [c|m ms r rs c c0 c' T _ IH]; [exact H2|].
  simpl. apply (Turns_cons m _ r _ c c0 c2 T). apply IH. exact H2.
Qed.

(** An occurrence that has another one wholly to its left is not the one
    a turn replaces: it stays where it stood, with what follows it. *)
Lemma leftmostTurn_keeps_later (c s r c' x z : jsstring) :
  leftmostTurn c s r c' ->
  c = x ++ s ++ z -> occursIn s x ->
  exists y, c' = y ++ s ++ z.
Proof.
  intros [[Habs _]|(u & v & Hc & Hmin & ->)] Hx (a & b & Hab).
  - elim Habs. exists x, z. exact Hx.
  - assert (Hc' : c = a ++ s ++ (b ++ s ++ z)).
    { rewrite Hx, Hab, <- !app_assoc. reflexivity. }
    assert (Hle := Hmin a _ Hc').
    assert (Hv : v = skipn (length (u ++ s)) c).
    { rewrite Hc, app_assoc, skipn_at. reflexivity. }
    assert (Hsplit : skipn (length (u ++ s)) c
                     = skipn (length (u ++ s)) (a ++ s) ++ b ++ s ++ z).
    { rewrite Hc'. rewrite (app_assoc a s), skipn_app.
      replace (length (u ++ s) - length (a ++ s)) with 0
        by (rewrite !length_app; lia).
      reflexivity. }
    exists (u ++ r ++ skipn (length (u ++ s)) (a ++ s) ++ b).
    rewrite Hv, Hsplit, <- !app_assoc. reflexivity.
Qed.

(** The loop of the resolver is a sequence of turns. *)
Lemma includeLoop_turns
    (fetch : IncMatch -> State -> option (option jsstring * State))
    (ms : list IncMatch) (rs : list jsstring) (st st' : State) :
  Fetched fetch ms rs st st' ->
  forallb patternFree rs = true ->
  forall c,
    exists out,
      includeLoop fetch ms c st = Some (Finished, out, st') /\ Turns ms rs c out.
Proof.
  induction 1 as [st|m found r rs st st1 st2 F _ IH]; intros Hfree c.
  - exists c. split; [reflexivity|constructor].
  - simpl in Hfree. apply andb_true_iff in Hfree as [Hr Hrs].
    destruct (IH Hrs (replace c (m_string m) r)) as (out & Hloop & Hturns).
    exists out. split.
    + simpl. rewrite F. exact Hloop.
    + apply (Turns_cons m found r rs c (replace c (m_string m) r) out);
        [apply leftmostTurn_replace; exact Hr|exact Hturns].
Qed.

(** C5, as the code has it.  The matches are taken in the order found, and
    each turn is one exact string replacement: with fragment contents that
    hold no replacement pattern, it replaces the leftmost occurrence of the
    match's text in the content as the earlier turns left it, and no other
    occurrence (or nothing when the text is absent); the resolved content
    is the one these turns lead to, and there is no other.  When that
    leftmost occurrence is, at each turn, the directive itself
    ([ownFirst]), the result is the substitution position by position:
    every match gives way, where it stands, to its own fragment content.
    When, at the turn of the last match, its text stands at some place
    with another occurrence wholly to the left of it, as in text an
    earlier turn inserted, the text at that place is not replaced: it
    stays in the resolved content, with what follows it. *)
Theorem C5_matches_replace_leftmost_occurrence_in_order
    (fuel : nat) (file : Target) (insertNotFound : bool) (st st' : State)
    (gs : list (jsstring * IncMatch)) (tail : jsstring) (rs : list jsstring) :
  readFileSync w (slashed (t_directory file) (t_filename file))
  = ReadOk (assemble gs tail) ->
  getMatches (assemble gs tail) = map snd gs ->
  Fetched (fetchMatch w cmd (doFileInclude w cmd fuel) (matchDirectoryOf file))
          (map snd gs) rs st st' ->
  forallb patternFree rs = true ->
  (exists out,
     doFileInclude w cmd (S fuel) file insertNotFound st = Some (out, st')
     /\ forall out', Turns (map snd gs) rs (assemble gs tail) out' <-> out' = out)
  /\ (ownFirst [] gs rs ->
      doFileInclude w cmd (S fuel) file insertNotFound st
      = Some (splice gs rs tail, st'))
  /\ (forall gs0 g m rs0 r c1 x z,
        gs = gs0 ++ [(g, m)] -> rs = rs0 ++ [r] ->
        Turns (map snd gs0) rs0 (assemble gs tail) c1 ->
        c1 = x ++ m_string m ++ z -> occursIn (m_string m) x ->
        exists y,
          doFileInclude w cmd (S fuel) file insertNotFound st
          = Some (y ++ m_string m ++ z, st')).
Proof.
  intros Hread Hmatches Hfetched Hfree.
  destruct (includeLoop_turns _ _ _ _ _ Hfetched Hfree (assemble gs tail))
    as (out & Hloop & Hturns).
  assert (Hrun : doFileInclude w cmd (S fuel) file insertNotFound st = Some (out, st')).
  { rewrite doFileInclude_eq, Hread, Hmatches, Hloop. reflexivity. }
  split; [|split].
  - exists out. split; [exact Hrun|]. intros out'. split.
    + intros H. apply (Turns_unique _ _ _ _ _ H Hturns).
    + intros ->. exact Hturns.
  - intros Hown. rewrite doFileInclude_eq, Hread, Hmatches.
    assert (Hloop' := includeLoop_splice _ gs rs tail [] st st' Hfetched Hfree Hown).
    cbn [app] in Hloop'. rewrite Hloop'. reflexivity.
  - intros gs0 g m rs0 r c1 x z Hgs Hrs Hbefore Hc1 Hleft.
    assert (Hr : patternFree r = true).
    { rewrite Hrs, forallb_app in Hfree. apply andb_true_iff in Hfree as [_ H].
      simpl in H. rewrite andb_true_r in H. exact H. }
    set (c0 := assemble gs tail) in Hturns, Hbefore. clearbody c0.
    rewrite Hgs, Hrs, map_app in Hturns.
    destruct (leftmostTurn_keeps_later c1 (m_string m) r _ x z
                (leftmostTurn_replace c1 (m_string m) r Hr) Hc1 Hleft) as [y Hy].
    exists y. rewrite Hrun. f_equal. f_equal.
    rewrite <- Hy. apply (Turns_unique _ _ _ _ _ Hturns).
    apply (Turns_app _ _ _ _ _ c1 _ Hbefore).
    apply (Turns_cons m [] r [] c1 _ _ (leftmostTurn_replace c1 (m_string m) r Hr)).
    constructor.
Qed.




End ResolverSubstitution.

Lemma C5_replace_in_order_witness :
  doFileInclude worldTwice defaultCommander 2 exRoot true initialState
  = Some (lit "A" ++ LF ++ lit "A", initialState)
  /\ exists y,
       doFileInclude worldSelf rawCommander 1 exRoot true initialState
       = Some (y ++ dirA ++ [], initialState).
Proof.
  split.
  - assert (HF : Fetched (fetchMatch worldTwice defaultCommander
                            (doFileInclude worldTwice defaultCommander 1)
                            (matchDirectoryOf exRoot))
                         (map snd layoutTwice) [lit "A"; lit "A"]
                         initialState initialState).
    { eapply Fetched_cons; [reflexivity|].
      eapply Fetched_cons; [reflexivity|]. apply Fetched_nil. }
    apply (proj1 (proj2 (C5_matches_replace_leftmost_occurrence_in_order
                           worldTwice defaultCommander 1 exRoot true initialState
                           initialState layoutTwice [] [lit "A"; lit "A"]
                           eq_refl eq_refl HF eq_refl))).
    repeat split; reflexivity.
  - assert (HF : Fetched (fetchMatch worldSelf rawCommander
                            (doFileInclude worldSelf rawCommander 0)
                            (matchDirectoryOf exRoot))
                         (map snd layoutTwice)
                         [lit "<@@include('a')>"; lit "<@@include('a')>"]
                         initialState initialState).
    { eapply Fetched_cons; [reflexivity|].
      eapply Fetched_cons; [reflexivity|]. apply Fetched_nil. }
    apply (proj2 (proj2 (C5_matches_replace_leftmost_occurrence_in_order
                           worldSelf rawCommander 0 exRoot true initialState
                           initialState layoutTwice []
                           [lit "<@@include('a')>"; lit "<@@include('a')>"]
                           eq_refl eq_refl HF eq_refl))
             [([], mkMatch dirA (lit "a"))] LF (mkMatch dirA (lit "a"))
             [lit "<@@include('a')>"] (lit "<@@include('a')>")
             (replace (assemble layoutTwice []) dirA (lit "<@@include('a')>"))
             (lit "<@@include('a')>" ++ LF) []).
    + reflexivity.
    + reflexivity.
    + apply (Turns_cons (mkMatch dirA (lit "a")) [] (lit "<@@include('a')>") []
               (assemble layoutTwice []) _ _
               (leftmostTurn_replace (assemble layoutTwice []) dirA
                                     (lit "<@@include('a')>") eq_refl)).
      apply Turns_nil.
    + reflexivity.
    + exists (lit "<"), (lit ">" ++ LF). reflexivity.
Defined.

(** The same directive twice, and a fragment that quotes it: the second
    turn replaces the quotation inside the text the first turn inserted, and
    the second directive stays where it stood.  Position by position, each
    directive would have given way to one copy of the fragment. *)
Lemma C5_inserted_text_takes_the_turn_of_a_later_directive :
  readFileSync worldSelf (lit "src/index.html") = ReadOk (assemble layoutTwice [])
  /\ getMatches (assemble layoutTwice []) = map snd layoutTwice
  /\ readFileSync worldSelf (lit "src/a") = ReadOk (lit "<@@include('a')>")
  /\ splice layoutTwice [lit "<@@include('a')>"; lit "<@@include('a')>"] []
     = lit "<@@include('a')>" ++ LF ++ lit "<@@include('a')>"
  /\ doFileInclude worldSelf rawCommander 1 exRoot true initialState
     = Some (lit "<<@@include('a')>>" ++ LF ++ lit "@@include('a')", initialState).
Proof. repeat split; reflexivity. Qed.




(** * Further properties of the code *)

(** ** Paths: [getFilename], [getDirectory] and the directory of a match *)

Section PathRoundTrips.

Lemma notIn_by_search (c : N) (t : jsstring) :
  existsb (N.eqb c) t = false -> ~ In c t.
Proof.
  intros H Hin. assert (E : existsb (N.eqb c) t = true).
  { apply existsb_exists. exists c. split; [exact Hin|apply N.eqb_refl]. }
  congruence.
Qed.

Lemma join_split (sep : N) (s : jsstring) : join sep (split sep s) = s.
Proof.
  induction s as [|c s IH]; [reflexivity|].
  simpl split. destruct (N.eqb_spec c sep) as [->|Hc].
  - assert (NE := split_not_nil sep s).
    destruct (split sep s) as [|p rest]; [contradiction|].
    simpl in *. rewrite IH. reflexivity.
  - assert (NE := split_not_nil sep s).
    destruct (split sep s) as [|p rest]; [contradiction|].
    destruct rest as [|q rest]; simpl in *; rewrite <- IH; reflexivity.
Qed.

Lemma join_last (sep : N) (l : list jsstring) (x : jsstring) :
  l <> [] -> join sep (l ++ [x]) = join sep l ++ sep :: x.
Proof.
  induction l as [|p l IH]; [contradiction|]. intros _.
  destruct l as [|q l]; [reflexivity|].
  change (join sep ((p :: q :: l) ++ [x]))
    with (p ++ sep :: join sep ((q :: l) ++ [x])).
  rewrite IH by discriminate.
  change (join sep (p :: q :: l)) with (p ++ sep :: join sep (q :: l)).
  rewrite <- app_assoc. reflexivity.
Qed.

Lemma split_two (sep : N) (s : jsstring) :
  In sep s -> removelast (split sep s) <> [].
Proof.
  induction s as [|c s IH]; [intros []|]. intros Hin. simpl split.
  assert (NE := split_not_nil sep s).
  destruct (N.eqb_spec c sep) as [->|Hc].
  - destruct (split sep s); [contradiction|discriminate].
  - destruct Hin as [->|Hin]; [contradiction|]. specialize (IH Hin).
    destruct (split sep s) as [|p rest]; [contradiction|].
    destruct rest; [contradiction|discriminate].
Qed.

Lemma split_app_sep (sep : N) (a b : jsstring) :
  split sep (a ++ sep :: b) = split sep a ++ split sep b.
Proof.
  induction a as [|c a IH].
  - simpl. rewrite N.eqb_refl. reflexivity.
  - simpl app. simpl split. rewrite IH.
    assert (NE := split_not_nil sep a).
    destruct (N.eqb c sep); [reflexivity|].
    destruct (split sep a); [contradiction|reflexivity].
Qed.

Lemma path_parts (file : jsstring) :
  (~ In SLASH file -> getDirectory file = [] /\ getFilename file = file)
  /\ (In SLASH file -> file = slashed (getDirectory file) (getFilename file)).
Proof.
  unfold getDirectory, getFilename, slashed. split.
  - intros H. rewrite split_plain by exact H. split; reflexivity.
  - intros H. assert (R := split_two SLASH file H).
    assert (NE := split_not_nil SLASH file).
    rewrite <- (join_split SLASH file) at 1.
    rewrite (app_removelast_last [] NE) at 1.
    apply join_last. exact R.
Qed.

(** X1. A path is its directory and its file name: with no slash in it the
    directory is empty and the file name is the path; with a slash it is
    the directory, a slash, and the file name. *)
Theorem X1_path_is_directory_and_filename (file : jsstring) :
  (~ In SLASH file -> getDirectory file = [] /\ getFilename file = file)
  /\ (In SLASH file -> file = slashed (getDirectory file) (getFilename file)).
Proof.
  split.
  - intros H. unfold getDirectory, getFilename.
    rewrite split_plain by exact H. split; reflexivity.
  - intros H. unfold getDirectory, getFilename, slashed.
    rewrite <- (join_split SLASH file) at 1.
    rewrite (app_removelast_last [] (split_not_nil SLASH file)) at 1.
    apply join_last. apply split_two. exact H.
Qed.

Lemma X1_path_witness :
  (getDirectory (lit "index.html") = [] /\ getFilename (lit "index.html") = lit "index.html")
  /\ lit "src/partials/header.html"
     = slashed (getDirectory (lit "src/partials/header.html"))
               (getFilename (lit "src/partials/header.html")).
Proof.
  split.
  - apply (proj1 (X1_path_is_directory_and_filename (lit "index.html"))).
    apply notIn_by_search. reflexivity.
  - apply (proj2 (X1_path_is_directory_and_filename (lit "src/partials/header.html"))).
    simpl. tauto.
Defined.

Lemma last_app_ne {A : Type} (l1 l2 : list A) (d : A) :
  l2 <> [] -> last (l1 ++ l2) d = last l2 d.
Proof.
  intros H. induction l1 as [|x l1 IH]; [reflexivity|].
  simpl app. destruct (l1 ++ l2) eqn:E.
  - apply app_eq_nil in E as [_ E]. contradiction.
  - exact IH.
Qed.

Lemma join_app (sep : N) (l1 l2 : list jsstring) :
  l1 <> [] -> l2 <> [] ->
  join sep (l1 ++ l2) = join sep l1 ++ sep :: join sep l2.
Proof.
  intros H1 H2. induction l1 as [|p l1 IH]; [contradiction|].
  destruct l1 as [|q l1].
  - destruct l2; [contradiction|reflexivity].
  - change (join sep ((p :: q :: l1) ++ l2))
      with (p ++ sep :: join sep ((q :: l1) ++ l2)).
    rewrite IH by discriminate.
    change (join sep (p :: q :: l1)) with (p ++ sep :: join sep (q :: l1)).
    rewrite <- app_assoc. reflexivity.
Qed.

(** X2. Joining with a slash and taking apart again: the file name of
    [a/b] is the file name of [b]; its directory is [a] when [b] holds no
    slash, and [a] joined with the directory of [b] otherwise. *)
Theorem X2_filename_and_directory_of_a_joined_path (a b : jsstring) :
  getFilename (slashed a b) = getFilename b
  /\ (~ In SLASH b -> getDirectory (slashed a b) = a)
  /\ (In SLASH b -> getDirectory (slashed a b) = slashed a (getDirectory b)).
Proof.
  unfold getFilename, getDirectory, slashed.
  rewrite split_app_sep.
  assert (NEa := split_not_nil SLASH a). assert (NEb := split_not_nil SLASH b).
  split; [apply last_app_ne; exact NEb|].
  rewrite removelast_app by exact NEb. split.
  - intros H. rewrite (split_plain SLASH b H). simpl removelast.
    rewrite app_nil_r. apply join_split.
  - intros H. rewrite join_app; [|exact NEa|apply split_two; exact H].
    rewrite join_split. reflexivity.
Qed.

Lemma X2_joined_path_witness :
  getDirectory (slashed (lit "src") (lit "index.html")) = lit "src"
  /\ getDirectory (slashed (lit "src") (lit "partials/header.html"))
     = slashed (lit "src") (getDirectory (lit "partials/header.html")).
Proof.
  destruct (X2_filename_and_directory_of_a_joined_path (lit "src") (lit "index.html"))
    as (_ & H1 & _).
  destruct (X2_filename_and_directory_of_a_joined_path
              (lit "src") (lit "partials/header.html")) as (_ & _ & H2).
  split.
  - apply H1. apply notIn_by_search. reflexivity.
  - apply H2. simpl. tauto.
Defined.

Lemma truthy_nil (s : jsstring) : truthy s = false <-> s = [].
Proof. destruct s; simpl; split; congruence. Qed.

(** X3. The directory given to the matches of a file is the directory the
    file itself lies in: the path of the file is that directory joined with
    the file's last path segment, so the paths of its directives are looked
    up beside it.  (The one exception is a file name with a slash in front
    of its only segment, whose directory part is empty.)  For a scanned
    file, named by its last segment, it is the file's [directory]. *)
Theorem X3_matches_are_looked_up_beside_the_file (file : Target) :
  (~ In SLASH (t_filename file) \/ getDirectory (t_filename file) <> [] ->
   slashed (t_directory file) (t_filename file)
   = slashed (matchDirectoryOf file) (getFilename (t_filename file)))
  /\ (forall f, baseNamed f -> matchDirectoryOf (targetOfSource f) = directory f).
Proof.
  split.
  - intros H. unfold matchDirectoryOf. cbv zeta.
    destruct (path_parts (t_filename file)) as [Hplain Hslash].
    destruct (truthy (getDirectory (t_filename file))) eqn:T.
    + destruct (in_dec N.eq_dec SLASH (t_filename file)) as [Hin|Hout].
      * rewrite (Hslash Hin) at 1. unfold slashed.
        rewrite <- app_assoc. reflexivity.
      * destruct (Hplain Hout) as [E _]. rewrite E in T. discriminate.
    + apply truthy_nil in T. destruct H as [Hout|Hne]; [|contradiction].
      destruct (Hplain Hout) as [_ E]. rewrite E. reflexivity.
  - intros f Hb. unfold matchDirectoryOf, targetOfSource. cbv zeta. simpl.
    unfold baseNamed in Hb.
    destruct (path_parts (filename f)) as [Hplain _].
    assert (Hout : ~ In SLASH (filename f))
      by (rewrite <- Hb; apply getFilename_segment).
    destruct (Hplain Hout) as [E _]. rewrite E. reflexivity.
Qed.

Lemma X3_beside_the_file_witness :
  slashed (lit "src") (lit "partials/header.html")
  = slashed (matchDirectoryOf exHeaderTarget) (getFilename (lit "partials/header.html")).
Proof.
  apply (proj1 (X3_matches_are_looked_up_beside_the_file exHeaderTarget)).
  right. discriminate.
Defined.

End PathRoundTrips.

(** ** The matcher, round by round *)

Section MatcherRounds.

Lemma searchFrom_shift (s : jsstring) :
  forall i,
    searchFrom s i
    = match searchFrom s 0 with
      | Some (j, m) => Some (i + j, m)
      | None => None
      end.
Proof.
  induction s as [|c s IH]; intros i.
  - rewrite !(searchFrom_eq []). destruct (matchHere []); [|reflexivity].
    rewrite Nat.add_0_r. reflexivity.
  - rewrite !(searchFrom_eq (c :: s)). destruct (matchHere (c :: s)).
    + rewrite Nat.add_0_r. reflexivity.
    + rewrite (IH (S i)), (IH 1). destruct (searchFrom s 0) as [[j m]|]; [|reflexivity].
      f_equal. f_equal. lia.
Qed.

Lemma searchFrom_fits (s : jsstring) (i j : nat) (whole captured : jsstring) :
  searchFrom s i = Some (j, (whole, captured)) ->
  j + length whole <= i + length s /\ 13 <= length whole /\ i <= j.
Proof.
  intros H. destruct (searchFrom_Some _ _ _ _ _ H) as (g & rest & Hs & Hj & Hm & _).
  destruct (matchHere_Some _ _ _ Hm) as (Hwhole & _).
  apply (f_equal (@length N)) in Hs. rewrite !length_app in Hs.
  rewrite Hwhole, directive_length in *. lia.
Qed.

(** The loop at index [li + k] of [data] is the loop at index [k] of
    [data] without its first [li] characters. *)
Lemma getMatchesLoop_shift (data : jsstring) (li : nat) :
  forall fuel k found,
    li + k <= length data ->
    getMatchesLoop fuel data (li + k) found
    = getMatchesLoop fuel (skipn li data) k found.
Proof.
  induction fuel as [|fuel IH]; intros k found Hle; [reflexivity|].
  simpl. rewrite !exec_in_range by (rewrite ?length_skipn; lia).
  rewrite skipn_skipn, (Nat.add_comm k li).
  rewrite (searchFrom_shift _ (li + k)), (searchFrom_shift _ k).
  destruct (searchFrom (skipn (li + k) data) 0) as [[j [whole captured]]|] eqn:S0;
    [|reflexivity].
  destruct (searchFrom_fits _ _ _ _ _ S0) as (Hfit & _). rewrite length_skipn in Hfit.
  replace (li + k + j + length whole) with (li + (k + j + length whole)) by lia.
  apply IH. lia.
Qed.

(** With enough rounds the loop returns the matches of what is left of
    [data], whatever was found before. *)
Lemma getMatchesLoop_enough (data : jsstring) (li fuel : nat) (found : list IncMatch) :
  li <= length data ->
  length data - li < fuel ->
  getMatchesLoop fuel data li found = Some (found ++ getMatches (skipn li data), 0).
Proof.
  intros Hle Hfuel.
  destruct (getMatchesLoop_layout data (length data - li) li)
    as (gs & tail & _ & _ & Hcount & Hloop); [lia|exact Hle|].
  rewrite Hloop by lia. unfold getMatches, getMatchesFrom.
  rewrite <- (getMatchesLoop_shift data li _ 0 []) by lia.
  rewrite Nat.add_0_r, Hloop by (rewrite length_skipn; lia).
  reflexivity.
Qed.

(** One round of [getMatches]: the leftmost match, then the matches of what
    follows it. *)
Lemma getMatches_unfold (data : jsstring) :
  getMatches data
  = match searchFrom data 0 with
    | Some (j, (whole, captured)) =>
        mkMatch whole captured :: getMatches (skipn (j + length whole) data)
    | None => []
    end.
Proof.
  unfold getMatches at 1. unfold getMatchesFrom. simpl getMatchesLoop.
  rewrite exec_in_range by lia. simpl skipn.
  destruct (searchFrom data 0) as [[j [whole captured]]|] eqn:S0; [|reflexivity].
  destruct (searchFrom_fits _ _ _ _ _ S0) as (Hfit & Hlong & _).
  rewrite getMatchesLoop_enough by lia. reflexivity.
Qed.

End MatcherRounds.

Section MatcherProperties.

(** X4. Entered with the pattern's [lastIndex] at any value, [getMatches]
    returns the matches of the content from that index on (none beyond
    the end), and leaves [lastIndex] at 0: a stale index makes it skip the
    start of the content once, and is then gone. *)
Theorem X4_stale_lastIndex_skips_and_is_reset (data : jsstring) (lastIndex : nat) :
  getMatchesFrom data lastIndex = Some (getMatches (skipn lastIndex data), 0).
Proof.
  destruct (Nat.le_gt_cases lastIndex (length data)) as [Hle|Hgt].
  - unfold getMatchesFrom. rewrite getMatchesLoop_enough by lia. reflexivity.
  - rewrite skipn_all2 by lia. unfold getMatchesFrom. simpl. unfold exec.
    replace (length data <? lastIndex) with true
      by (symmetry; apply Nat.ltb_lt; exact Hgt).
    reflexivity.
Qed.

Lemma lineOf_before_terminator (x b : jsstring) (c : N) :
  lineTerminator c = true -> lineOf (x ++ c :: b) = lineOf x.
Proof.
  intros Hc. induction x as [|d x IH]; simpl.
  - rewrite Hc. reflexivity.
  - destruct (lineTerminator d); [reflexivity|]. rewrite IH. reflexivity.
Qed.

Lemma stripPrefix_before (p : jsstring) (c : N) (b : jsstring) :
  ~ In c p ->
  forall s,
    stripPrefix p (s ++ c :: b)
    = match stripPrefix p s with
      | Some r => Some (r ++ c :: b)
      | None => None
      end.
Proof.
  induction p as [|x p IH]; intros Hc s; [reflexivity|].
  destruct s as [|y s]; simpl.
  - destruct (N.eqb_spec x c) as [->|_]; [|reflexivity].
    elim Hc. left; reflexivity.
  - destruct (N.eqb x y); [|reflexivity].
    apply IH. intros Hin. apply Hc. right; exact Hin.
Qed.

Lemma terminator_not_in_OPEN (c : N) : lineTerminator c = true -> ~ In c OPEN.
Proof.
  intros Hc Hin.
  assert (E : existsb lineTerminator OPEN = true)
    by (apply existsb_exists; exists c; split; assumption).
  discriminate E.
Qed.

Lemma lastClose_fits (l : jsstring) (k : nat) :
  lastClose l = Some k -> k + 2 <= length l.
Proof.
  intros H. destruct (lastClose_Some _ _ H) as [r Hr].
  apply (f_equal (@length N)) in Hr. rewrite length_skipn, length_app in Hr.
  simpl in Hr. lia.
Qed.

Lemma lineOf_length (s : jsstring) : length (lineOf s) <= length s.
Proof.
  destruct (lineOf_prefix s) as [rest E]. rewrite E at 2.
  rewrite length_app. lia.
Qed.

(** A match never looks past the end of its line. *)
Lemma matchHere_before_terminator (s b : jsstring) (c : N) :
  lineTerminator c = true -> matchHere (s ++ c :: b) = matchHere s.
Proof.
  intros Hc. unfold matchHere.
  rewrite (stripPrefix_before OPEN c b (terminator_not_in_OPEN c Hc)).
  destruct (stripPrefix OPEN s) as [rest|]; [|reflexivity].
  rewrite lineOf_before_terminator by exact Hc.
  destruct (lastClose (lineOf rest)) as [k|] eqn:E; [|reflexivity].
  assert (Hk := lastClose_fits _ _ E). assert (Hl := lineOf_length rest).
  cbv zeta. rewrite firstn_prefix by lia. reflexivity.
Qed.

Lemma searchFrom_before_terminator (b : jsstring) (c : N) :
  lineTerminator c = true ->
  forall a i,
    searchFrom (a ++ c :: b) i
    = match searchFrom a i with
      | Some found => Some found
      | None => searchFrom b (i + S (length a))
      end.
Proof.
  intros Hc. induction a as [|x a IH]; intros i.
  - rewrite (searchFrom_eq ([] ++ c :: b)), (searchFrom_eq []).
    rewrite (matchHere_before_terminator [] b c Hc).
    destruct (matchHere []); [reflexivity|].
    cbn [app length]. rewrite Nat.add_1_r. reflexivity.
  - rewrite (searchFrom_eq ((x :: a) ++ c :: b)), (searchFrom_eq (x :: a)).
    rewrite (matchHere_before_terminator (x :: a) b c Hc).
    destruct (matchHere (x :: a)); [reflexivity|].
    cbn [app]. rewrite IH. destruct (searchFrom a (S i)); [reflexivity|].
    f_equal. simpl. lia.
Qed.

Lemma getMatches_lines_bounded (b : jsstring) (c : N) :
  lineTerminator c = true ->
  forall n a, length a <= n ->
    getMatches (a ++ c :: b) = getMatches a ++ getMatches b.
Proof.
  intros Hc. induction n as [|n IH]; intros a Hn;
    rewrite (getMatches_unfold (a ++ c :: b)), (getMatches_unfold a),
      (searchFrom_before_terminator b c Hc);
    destruct (searchFrom a 0) as [[j [whole captured]]|] eqn:S0.
  - destruct (searchFrom_fits _ _ _ _ _ S0). lia.
  - simpl "++". rewrite searchFrom_shift, (getMatches_unfold b).
    destruct (searchFrom b 0) as [[j [whole captured]]|]; [|reflexivity].
    rewrite skipn_app, skipn_all2 by lia.
    replace (0 + S (length a) + j + length whole - length a)
      with (S (j + length whole)) by lia.
    reflexivity.
  - destruct (searchFrom_fits _ _ _ _ _ S0) as (Hfit & Hlong & _).
    rewrite skipn_app.
    replace (j + length whole - length a) with 0 by lia.
    simpl skipn. rewrite IH by (rewrite length_skipn; lia). reflexivity.
  - simpl "++". rewrite searchFrom_shift, (getMatches_unfold b).
    destruct (searchFrom b 0) as [[j [whole captured]]|]; [|reflexivity].
    rewrite skipn_app, skipn_all2 by lia.
    replace (0 + S (length a) + j + length whole - length a)
      with (S (j + length whole)) by lia.
    reflexivity.
Qed.

(** X5. Directives are matched line by line: the matches of a content cut
    in two by a line terminator are the matches of what stands before it,
    followed by the matches of what stands after it. *)
Theorem X5_matches_are_found_line_by_line (a b : jsstring) (c : N) :
  lineTerminator c = true ->
  getMatches (a ++ c :: b) = getMatches a ++ getMatches b.
Proof.
  intros Hc. apply (getMatches_lines_bounded b c Hc (length a)). lia.
Qed.

Lemma X5_line_by_line_witness :
  getMatches (lit "<p>@@include('a')</p>" ++ 10%N :: lit "@@include('b')")
  = getMatches (lit "<p>@@include('a')</p>") ++ getMatches (lit "@@include('b')").
Proof. apply X5_matches_are_found_line_by_line. reflexivity. Defined.

Lemma lineOf_oneLine_id (p : jsstring) : oneLine p -> lineOf p = p.
Proof.
  intros H. rewrite <- (app_nil_r p) at 1. rewrite lineOf_app by exact H.
  simpl. apply app_nil_r.
Qed.

Lemma matchHere_directive (p : jsstring) :
  oneLine p -> matchHere (directive p) = Some (directive p, p).
Proof.
  intros Hp. unfold matchHere, directive. rewrite stripPrefix_app.
  assert (Hl : lineOf (p ++ CLOSE) = p ++ CLOSE).
  { apply lineOf_oneLine_id. apply oneLine_app. split; [exact Hp|reflexivity]. }
  rewrite Hl.
  destruct (lastClose_max p []) as (k & Hk & Hle).
  assert (E : p ++ CLOSE ++ [] = p ++ CLOSE) by (rewrite app_nil_r; reflexivity).
  rewrite E in Hk. rewrite Hk.
  assert (Hfit := lastClose_fits _ _ Hk). rewrite length_app in Hfit. simpl in Hfit.
  assert (k = length p) by lia. subst k.
  cbv zeta. rewrite firstn_app, firstn_all, Nat.sub_diag. simpl.
  rewrite app_nil_r. reflexivity.
Qed.

Lemma getMatches_directive (p : jsstring) :
  oneLine p -> getMatches (directive p) = [mkMatch (directive p) p].
Proof.
  intros Hp. rewrite getMatches_unfold, searchFrom_eq.
  rewrite (matchHere_directive p Hp).
  rewrite skipn_all2 by (simpl; lia). reflexivity.
Qed.

Lemma leftmostGreedy_wellFormed (gs : list (jsstring * IncMatch)) (tail : jsstring) :
  leftmostGreedy gs tail -> Forall wellFormed (map snd gs).
Proof.
  induction gs as [|[g m] gs IH]; simpl; [constructor|].
  intros (Hm & Hline & _ & _ & Hrest).
  constructor; [split; assumption|apply IH; exact Hrest].
Qed.

(** Every match is a directive text around a one-line path. *)
Lemma getMatches_wellFormed (data : jsstring) : Forall wellFormed (getMatches data).
Proof.
  destruct (getMatches_layout data) as (gs & tail & -> & _ & Hlg).
  apply (leftmostGreedy_wellFormed gs tail Hlg).
Qed.

(** X6. Writing a directive and matching it: the text of a directive with
    a one-line path is matched as exactly that directive, with that path;
    and every match the matcher returns, matched again on its own text,
    gives back itself. *)
Theorem X6_directive_text_is_matched_as_itself (data p : jsstring) :
  (oneLine p -> getMatches (directive p) = [mkMatch (directive p) p])
  /\ Forall (fun m => getMatches (m_string m) = [m]) (getMatches data).
Proof.
  split; [apply getMatches_directive|].
  assert (W := getMatches_wellFormed data).
  induction W as [|[s f] ms [Hs Hf] _ IH]; constructor; [|exact IH].
  simpl in *. subst s. apply getMatches_directive. exact Hf.
Qed.

Lemma X6_directive_text_witness :
  getMatches (directive (lit "partials/it's.html"))
  = [mkMatch (directive (lit "partials/it's.html")) (lit "partials/it's.html")].
Proof.
  apply (proj1 (X6_directive_text_is_matched_as_itself [] (lit "partials/it's.html"))).
  reflexivity.
Defined.

Lemma layout_length (gs : list (jsstring * IncMatch)) (tail : jsstring) :
  Forall wellFormed (map snd gs) ->
  13 * length gs <= length (assemble gs tail).
Proof.
  induction gs as [|[g m] gs IH]; simpl; [lia|].
  intros H. inversion H as [|? ? [Hm _] Hrest]; subst.
  specialize (IH Hrest). simpl in Hm.
  rewrite !length_app, Hm, directive_length. lia.
Qed.

(** X7. A match takes at least thirteen characters of the content, the
    eleven before the path and the two after it, and matches do not
    overlap: a content holds at most one match per thirteen characters,
    and none when it is shorter than that. *)
Theorem X7_thirteen_characters_per_match (data : jsstring) :
  13 * length (getMatches data) <= length data
  /\ Forall (fun m => length (m_string m) = 13 + length (m_filename m))
            (getMatches data).
Proof.
  split.
  - destruct (getMatches_layout data) as (gs & tail & E & Hd & Hlg).
    rewrite E, length_map. rewrite Hd.
    apply layout_length. apply (leftmostGreedy_wellFormed gs tail Hlg).
  - assert (W := getMatches_wellFormed data).
    induction W as [|m ms [Hs _] _ IH]; constructor; [|exact IH].
    rewrite Hs. apply directive_length.
Qed.

End MatcherProperties.

(** ** The scanner as a whole *)

Section ScannerProperties.

Variable w : World.

Lemma checkForPatternLoop_flat_map (files : list jsstring) :
  forall acc st,
    checkForPatternLoop w files acc st
    = (acc ++ flat_map (scanOne w) (beforeDirectory w files),
       if length (beforeDirectory w files) <? length files
       then logError LogCannotReadSourceDirectory st else st).
Proof.
  induction files as [|file rest IH]; intros acc st.
  - simpl. rewrite app_nil_r. reflexivity.
  - cbn [checkForPatternLoop beforeDirectory].
    destruct (readFileSync w file) as [contents|code] eqn:R.
    + cbn [flat_map length]. unfold scanOne at 1. rewrite R.
      change (S (length (beforeDirectory w rest)) <? S (length rest))
        with (length (beforeDirectory w rest) <? length rest).
      destruct (nonEmpty (getMatches contents)); rewrite IH.
      * rewrite <- app_assoc. reflexivity.
      * reflexivity.
    + destruct code; try (simpl; rewrite app_nil_r; reflexivity);
        cbn [flat_map length]; unfold scanOne at 1; rewrite R;
        change (S (length (beforeDirectory w rest)) <? S (length rest))
          with (length (beforeDirectory w rest) <? length rest);
        rewrite IH; reflexivity.
Qed.

(** X8. [checkForPattern] as a whole: its result lists, in the order of
    the candidates and for the candidates up to the first directory, one
    source file for each candidate that can be read and holds a directive;
    and it logs one error exactly when a directory cut the scan short. *)
Theorem X8_scan_is_a_filtered_map (files : list jsstring) (st : State) :
  checkForPattern w files st
  = (flat_map (scanOne w) (beforeDirectory w files),
     if length (beforeDirectory w files) <? length files
     then logError LogCannotReadSourceDirectory st else st).
Proof. unfold checkForPattern. rewrite checkForPatternLoop_flat_map. reflexivity. Qed.

Lemma beforeDirectory_incl (files : list jsstring) (file : jsstring) :
  In file (beforeDirectory w files) -> In file files.
Proof.
  induction files as [|f rest IH]; simpl; [auto|].
  destruct (readFileSync w f) as [c|[]]; simpl; tauto.
Qed.

Lemma beforeDirectory_length (files : list jsstring) :
  length (beforeDirectory w files) <= length files.
Proof.
  induction files as [|f rest IH]; simpl; [lia|].
  destruct (readFileSync w f) as [c|[]]; simpl; lia.
Qed.

Lemma flat_map_scanOne_length (files : list jsstring) :
  length (flat_map (scanOne w) files) <= length files.
Proof.
  induction files as [|f rest IH]; simpl; [lia|].
  rewrite length_app. unfold scanOne at 1.
  destruct (readFileSync w f) as [c|]; [destruct (nonEmpty (getMatches c))|];
    simpl; lia.
Qed.

(** X9. What the scanner hands over and what it leaves alone.  Every
    source file of the result comes from a candidate that was read, carries
    the matches of its content, of which there is at least one, each a
    directive text around a one-line path, and is named by the last
    segment of the candidate's path.  There are no more source files than
    candidates.  The counters and the destination tree are not touched,
    and at most one line is logged. *)
Theorem X9_scanned_files_hold_directives (files : list jsstring) (st : State) :
  Forall (fun f =>
            exists file contents,
              In file files
              /\ readFileSync w file = ReadOk contents
              /\ f = mkSource (path_dirname w file) (getFilename file) (getMatches contents)
              /\ matches f <> []
              /\ Forall wellFormed (matches f))
         (fst (checkForPattern w files st))
  /\ length (fst (checkForPattern w files st)) <= length files
  /\ written (snd (checkForPattern w files st)) = written st
  /\ errors (snd (checkForPattern w files st)) = errors st
  /\ disk (snd (checkForPattern w files st)) = disk st
  /\ length (console (snd (checkForPattern w files st))) <= S (length (console st)).
Proof.
  unfold checkForPattern. rewrite checkForPatternLoop_flat_map. cbn [fst snd app].
  split; [|split].
  - apply Forall_forall. intros f Hf. apply in_flat_map in Hf as (file & Hfile & Hin).
    unfold scanOne in Hin.
    destruct (readFileSync w file) as [contents|] eqn:R; [|destruct Hin].
    destruct (nonEmpty (getMatches contents)) eqn:NE; [|destruct Hin].
    destruct Hin as [<-|[]]. exists file, contents.
    split; [apply beforeDirectory_incl; exact Hfile|].
    split; [exact R|]. split; [reflexivity|]. split.
    + simpl. destruct (getMatches contents); [discriminate NE|discriminate].
    + apply getMatches_wellFormed.
  - assert (H1 := flat_map_scanOne_length (beforeDirectory w files)).
    assert (H2 := beforeDirectory_length files). lia.
  - destruct (length (beforeDirectory w files) <? length files); simpl;
      repeat split; try reflexivity; rewrite ?length_app; simpl; lia.
Qed.

End ScannerProperties.

(** ** The classifier, applied again and on cycles *)

Section ClassifierProperties.

Lemma unreferenced_fewer (gs gs' : list SourceFile) (f : SourceFile) :
  (forall g, In g gs' -> In g gs) ->
  unreferenced gs f = true -> unreferenced gs' f = true.
Proof.
  unfold unreferenced. intros Hincl H. rewrite forallb_forall in H |- *.
  intros g Hg. apply H. apply Hincl. exact Hg.
Qed.

(** X10. Classifying twice changes nothing more: the files kept by
    [removeIncludedFiles] are files of its input, and none of them is the
    target of a directive of another kept file, so a second pass keeps
    them all. *)
Theorem X10_classifier_is_idempotent (files : list SourceFile) :
  removeIncludedFiles (removeIncludedFiles files) = removeIncludedFiles files
  /\ (forall f, In f (removeIncludedFiles files) -> In f files)
  /\ length (removeIncludedFiles files) <= length files.
Proof.
  rewrite (removeIncludedFiles_filter files).
  fold (unreferenced files).
  set (kept := filter (unreferenced files) files).
  assert (Hin : forall f, In f kept -> In f files /\ unreferenced files f = true)
    by (intros f Hf; apply filter_In in Hf; exact Hf).
  split; [|split].
  - rewrite (removeIncludedFiles_filter kept). fold (unreferenced kept).
    rewrite (filter_same (unreferenced kept) (fun _ => true)); [apply filter_true|].
    intros f Hf. apply (unreferenced_fewer files kept).
    + intros g Hg. apply Hin. exact Hg.
    + apply Hin. exact Hf.
  - intros f Hf. apply Hin. exact Hf.
  - apply filter_length_le.
Qed.

Lemma filter_nothing {A : Type} (p : A -> bool) (l : list A) :
  (forall x, In x l -> p x = false) -> filter p l = [].
Proof.
  induction l as [|x l IH]; intros H; simpl; [reflexivity|].
  rewrite (H x) by (left; reflexivity). apply IH.
  intros y Hy. apply H. right; exact Hy.
Qed.

(** X11. When every file of the input is named by a directive of some file
    of the input, as with pages that include each other, nothing is left
    to resolve and write. *)
Theorem X11_mutual_inclusion_leaves_nothing (files : list SourceFile) :
  (forall f, In f files ->
     exists g m, In g files /\ In m (matches g)
                 /\ getFilename (m_filename m) = filename f) ->
  removeIncludedFiles files = [].
Proof.
  intros H. rewrite removeIncludedFiles_filter. apply filter_nothing.
  intros f Hf. destruct (H f Hf) as (g & m & Hg & Hm & E).
  destruct (forallb (fun g0 => forallb (fun m0 => keeps m0 f) (matches g0)) files)
    eqn:F; [|reflexivity].
  rewrite forallb_forall in F. specialize (F g Hg).
  rewrite forallb_forall in F. specialize (F m Hm).
  unfold keeps in F. rewrite E, streq_refl in F. discriminate F.
Qed.

End ClassifierProperties.

Lemma X11_mutual_inclusion_witness : removeIncludedFiles exCycle = [].
Proof.
  apply X11_mutual_inclusion_leaves_nothing.
  intros f [<-|[<-|[]]].
  - eexists _, _. split; [right; left; reflexivity|].
    split; [left; reflexivity|reflexivity].
  - eexists _, _. split; [left; reflexivity|].
    split; [left; reflexivity|reflexivity].
Defined.

(** ** The resolver: what it counts, and what it returns at the edges *)

Section ResolverProperties.

Variable w : World.
Variable cmd : Commander.

Lemma onlyMissingFiles_refl (st : State) : OnlyMissingFiles st st.
Proof.
  repeat split. exists []. rewrite app_nil_r, Nat.add_0_r. repeat split.
Qed.

Lemma onlyMissingFiles_trans (st1 st2 st3 : State) :
  OnlyMissingFiles st1 st2 -> OnlyMissingFiles st2 st3 -> OnlyMissingFiles st1 st3.
Proof.
  intros (W1 & D1 & a1 & C1 & E1 & F1) (W2 & D2 & a2 & C2 & E2 & F2).
  split; [congruence|]. split; [congruence|].
  exists (a1 ++ a2). rewrite C2, C1, E2, E1, length_app, forallb_app, F1, F2.
  rewrite <- app_assoc. repeat split. lia.
Qed.

Lemma notFound_onlyMissingFiles (msg : jsstring) (st : State) :
  OnlyMissingFiles st (countError (logError (LogFileNotFound msg) st)).
Proof.
  repeat split. exists [LogFileNotFound msg]. simpl. repeat split. lia.
Qed.

Lemma includeLoop_onlyMissingFiles
    (fetch : IncMatch -> State -> option (option jsstring * State)) :
  (forall m s r s', fetch m s = Some (r, s') -> OnlyMissingFiles s s') ->
  forall found c st e c' st',
    includeLoop fetch found c st = Some (e, c', st') -> OnlyMissingFiles st st'.
Proof.
  intros Hfetch. induction found as [|m found IH]; intros c st e c' st'; simpl.
  - intros H; injection H as _ _ <-. apply onlyMissingFiles_refl.
  - destruct (fetch m st) as [[[r|] s1]|] eqn:F; [| |discriminate].
    + intros H. apply (onlyMissingFiles_trans st s1 st' (Hfetch _ _ _ _ F)).
      apply (IH _ _ _ _ _ H).
    + intros H; injection H as _ _ <-. apply (Hfetch _ _ _ _ F).
Qed.

Lemma doFileInclude_onlyMissingFiles (fuel : nat) :
  forall file flag st out st',
    doFileInclude w cmd fuel file flag st = Some (out, st') ->
    OnlyMissingFiles st st'.
Proof.
  induction fuel as [|fuel IH]; intros file flag st out st'; [discriminate|].
  rewrite doFileInclude_eq.
  destruct (readFileSync w (slashed (t_directory file) (t_filename file)))
    as [contents|code].
  - destruct (includeLoop _ (getMatches contents) contents st)
      as [[[[] c1] s1]|] eqn:L; [| |discriminate].
    + intros H; injection H as _ <-.
      apply (includeLoop_onlyMissingFiles _) in L; [exact L|].
      intros m s r s' F. unfold fetchMatch, getFileContents in F.
      destruct (includeRecursive cmd).
      * destruct (doFileInclude w cmd fuel _ true s) as [[r0 s0]|] eqn:D;
          [|discriminate]. injection F as _ <-. apply (IH _ _ _ _ _ D).
      * destruct (readFileSync w _); injection F as _ <-; apply onlyMissingFiles_refl.
    + unfold notFound; cbv zeta. intros H; injection H as _ <-.
      apply (onlyMissingFiles_trans st s1); [|apply notFound_onlyMissingFiles].
      apply (includeLoop_onlyMissingFiles _) in L; [exact L|].
      intros m s r s' F. unfold fetchMatch, getFileContents in F.
      destruct (includeRecursive cmd).
      * destruct (doFileInclude w cmd fuel _ true s) as [[r0 s0]|] eqn:D;
          [|discriminate]. injection F as _ <-. apply (IH _ _ _ _ _ D).
      * destruct (readFileSync w _); injection F as _ <-; apply onlyMissingFiles_refl.
  - unfold notFound; cbv zeta. intros H; injection H as _ <-.
    apply notFound_onlyMissingFiles.
Qed.

(** X12. Whenever a resolution by [doFileInclude] ends, at whatever depth
    of nested calls and in both modes, it has made no write and left
    [summary.written] alone; [log] was called at the level of errors with
    not-found messages only, and [summary.errors] grew by exactly the
    number of these calls, printed or not: every missing file is passed to
    [log] once and counted once. *)
Theorem X12_resolver_logs_what_it_counts
    (fuel : nat) (file : Target) (insertNotFound : bool) (st st' : State)
    (out : jsstring) :
  doFileInclude w cmd fuel file insertNotFound st = Some (out, st') ->
  written st' = written st
  /\ disk st' = disk st
  /\ exists added,
       console st' = console st ++ added
       /\ errors st' = errors st + length added
       /\ forallb isFileNotFound added = true.
Proof. intros H. exact (doFileInclude_onlyMissingFiles fuel _ _ _ _ _ H). Qed.

Lemma replace_in_nothing (search r : jsstring) :
  search <> [] -> replace [] search r = [].
Proof. intros H. destruct search; [contradiction|reflexivity]. Qed.

(** X13. A file that cannot be read is resolved to the empty string,
    whether or not the message is to be inserted: the not-found message is
    logged and counted once, but the place it is to take is looked for in
    the contents of the file that was not read, which are empty. *)
Theorem X13_unreadable_file_resolves_to_nothing
    (fuel : nat) (file : Target) (insertNotFound : bool) (st : State)
    (code : ErrCode) :
  readFileSync w (slashed (t_directory file) (t_filename file)) = ReadErr code ->
  t_string file <> Some [] ->
  doFileInclude w cmd (S fuel) file insertNotFound st
  = Some ([], countError
                (logError (LogFileNotFound (lit "File not found: " ++ t_filename file)) st)).
Proof.
  intros Hread Hstring. rewrite doFileInclude_eq, Hread. unfold notFound. cbv zeta.
  destruct insertNotFound; [|reflexivity].
  rewrite replace_in_nothing; [reflexivity|].
  destruct (t_string file) as [s|]; simpl; [|discriminate].
  intros ->. apply Hstring. reflexivity.
Qed.

Lemma fetchMatch_raw (resolve resolve' : Target -> bool -> State -> option (jsstring * State))
    (dir : jsstring) (m : IncMatch) (st : State) :
  includeRecursive cmd = false ->
  fetchMatch w cmd resolve dir m st = fetchMatch w cmd resolve' dir m st
  /\ exists r, fetchMatch w cmd resolve dir m st = Some (r, st).
Proof.
  intros Hmode. unfold fetchMatch. rewrite Hmode. split; [reflexivity|].
  destruct (getFileContents w _); eexists; reflexivity.
Qed.

Lemma includeLoop_raw (resolve resolve' : Target -> bool -> State -> option (jsstring * State))
    (dir : jsstring) :
  includeRecursive cmd = false ->
  forall found c st,
    includeLoop (fetchMatch w cmd resolve dir) found c st
    = includeLoop (fetchMatch w cmd resolve' dir) found c st
    /\ exists e c', includeLoop (fetchMatch w cmd resolve dir) found c st = Some (e, c', st).
Proof.
  intros Hmode. induction found as [|m found IH]; intros c st; simpl.
  - split; [reflexivity|]. eexists _, _. reflexivity.
  - destruct (fetchMatch_raw resolve resolve' dir m st Hmode) as [<- [r ->]].
    destruct r as [r|]; [apply IH|].
    split; [reflexivity|]. eexists _, _. reflexivity.
Qed.

(** X14. Without recursion, resolving a file always returns, whatever the
    bound on the depth, and counts at most one error: the state is left as
    it was, or one not-found message naming the file being resolved is
    logged and counted. *)
Theorem X14_raw_inclusion_returns_with_at_most_one_error
    (fuel : nat) (file : Target) (insertNotFound : bool) (st : State) :
  includeRecursive cmd = false ->
  exists out st',
    doFileInclude w cmd (S fuel) file insertNotFound st = Some (out, st')
    /\ doFileInclude w cmd 1 file insertNotFound st = Some (out, st')
    /\ (st' = st
        \/ st' = countError
                   (logError (LogFileNotFound (lit "File not found: " ++ t_filename file))
                             st)).
Proof.
  intros Hmode. rewrite !doFileInclude_eq.
  destruct (readFileSync w (slashed (t_directory file) (t_filename file)))
    as [contents|code].
  - destruct (includeLoop_raw (doFileInclude w cmd fuel) (doFileInclude w cmd 0)
                (matchDirectoryOf file) Hmode (getMatches contents) contents st)
      as [<- (e & c' & ->)].
    destruct e; eexists _, _; (split; [reflexivity|]); (split; [reflexivity|]).
    + left; reflexivity.
    + right; reflexivity.
  - eexists _, _. split; [reflexivity|]. split; [reflexivity|]. right; reflexivity.
Qed.

(** The first match of a content is the first occurrence of its text. *)
Lemma first_match_is_first_occurrence (g tail : jsstring) (m : IncMatch)
    (gs : list (jsstring * IncMatch)) :
  leftmostGreedy ((g, m) :: gs) tail ->
  indexOf (m_string m) (g ++ m_string m ++ assemble gs tail) = Some (length g).
Proof.
  intros (Hs & Hline & Hleft & _).
  destruct (indexOf_occurs (m_string m) g (assemble gs tail)) as (k & Hk & Hle).
  rewrite Hk. f_equal.
  destruct (Nat.eq_dec k (length g)) as [E|NE]; [exact E|].
  exfalso. apply (Hleft k); [lia|].
  assert (Hlen := indexOf_length _ _ _ Hk).
  apply indexOf_Some in Hk.
  exists (m_filename m), (skipn (k + length (m_string m)) (g ++ m_string m ++ assemble gs tail)).
  split; [exact Hline|].
  rewrite Hk at 1. rewrite <- Hs.
  replace k with (length (firstn k (g ++ m_string m ++ assemble gs tail))) at 1
    by (apply firstn_length_le; lia).
  apply skipn_at.
Qed.

(** X15. A file with a single directive is resolved through the
    replacement patterns of [String.replace]: the directive, which is the
    first place where a directive starts in the content, gives way to the
    fragment content in which [$$] has become [$], [$&] the text of the
    directive, and the backtick and quote patterns the content before and
    after the directive. *)
Theorem X15_single_directive_expands_patterns
    (fuel : nat) (file : Target) (insertNotFound : bool) (st st' : State)
    (contents r : jsstring) (m : IncMatch) :
  readFileSync w (slashed (t_directory file) (t_filename file)) = ReadOk contents ->
  getMatches contents = [m] ->
  fetchMatch w cmd (doFileInclude w cmd fuel) (matchDirectoryOf file) m st
  = Some (Some r, st') ->
  exists before after,
    contents = before ++ m_string m ++ after
    /\ (forall k, k < length before -> ~ startsDirective (skipn k contents))
    /\ doFileInclude w cmd (S fuel) file insertNotFound st
       = Some (before ++ getSubstitution (m_string m) before after r ++ after, st').
Proof.
  intros Hread Hmatches Hfetch.
  destruct (getMatches_layout contents) as (gs & tail & Hm & Hd & Hlg).
  rewrite Hmatches in Hm.
  destruct gs as [|[g m0] [|x gs]]; try discriminate. injection Hm as <-.
  simpl in Hd. exists g, tail. split; [exact Hd|]. split.
  - intros k Hk. rewrite Hd. apply Hlg. exact Hk.
  - rewrite doFileInclude_eq, Hread, Hmatches. simpl. rewrite Hfetch.
    assert (Hidx := first_match_is_first_occurrence g tail m [] Hlg).
    cbn [assemble] in Hidx. rewrite <- Hd in Hidx.
    assert (Hbefore : firstn (length g) contents = g).
    { rewrite Hd, firstn_app, firstn_all, Nat.sub_diag. simpl firstn.
      apply app_nil_r. }
    assert (Hafter : skipn (length g + length (m_string m)) contents = tail).
    { rewrite Hd, app_assoc, <- length_app. apply skipn_at. }
    unfold replace. rewrite Hidx, Hbefore, Hafter. reflexivity.
Qed.

End ResolverProperties.

Lemma X12_resolver_counts_witness :
  written (mkState 0 1 [LogFileNotFound (lit "File not found: missing.html")] []) = 0
  /\ disk (mkState 0 1 [LogFileNotFound (lit "File not found: missing.html")] []) = []
  /\ exists added,
       console (mkState 0 1 [LogFileNotFound (lit "File not found: missing.html")] [])
       = console initialState ++ added
       /\ errors (mkState 0 1 [LogFileNotFound (lit "File not found: missing.html")] [])
          = errors initialState + length added
       /\ forallb isFileNotFound added = true.
Proof.
  apply (X12_resolver_logs_what_it_counts worldMissing defaultCommander 2 exRoot true
           initialState _ (lit "<p></p>")).
  reflexivity.
Defined.

Lemma X13_unreadable_file_witness :
  doFileInclude worldMissing defaultCommander 1
                (mkTarget (lit "src") (lit "missing.html")
                          (Some (lit "@@include('missing.html')")))
                true initialState
  = Some ([], countError
                (logError (LogFileNotFound (lit "File not found: " ++ lit "missing.html"))
                          initialState)).
Proof.
  apply (X13_unreadable_file_resolves_to_nothing worldMissing defaultCommander 0
           (mkTarget (lit "src") (lit "missing.html")
                     (Some (lit "@@include('missing.html')")))
           true initialState ENOENT); [reflexivity|discriminate].
Defined.

Lemma X14_raw_inclusion_witness :
  exists out st',
    doFileInclude worldGaps rawCommander 5 exRoot true initialState = Some (out, st')
    /\ doFileInclude worldGaps rawCommander 1 exRoot true initialState = Some (out, st')
    /\ (st' = initialState
        \/ st' = countError
                   (logError (LogFileNotFound (lit "File not found: " ++ t_filename exRoot))
                             initialState)).
Proof.
  apply (X14_raw_inclusion_returns_with_at_most_one_error
           worldGaps rawCommander 4 exRoot true initialState).
  reflexivity.
Defined.

Lemma X15_single_directive_witness :
  exists before after,
    lit "<p>@@include('a')</p>" = before ++ lit "@@include('a')" ++ after
    /\ (forall k, k < length before ->
                  ~ startsDirective (skipn k (lit "<p>@@include('a')</p>")))
    /\ doFileInclude worldDollar defaultCommander 2 exRoot true initialState
       = Some (before
                 ++ getSubstitution (lit "@@include('a')") before after (lit "[$&|$$]")
                 ++ after, initialState).
Proof.
  apply (X15_single_directive_expands_patterns worldDollar defaultCommander 1 exRoot true
           initialState initialState (lit "<p>@@include('a')</p>") (lit "[$&|$$]")
           (mkMatch (lit "@@include('a')") (lit "a"))); reflexivity.
Defined.

(** ** The writer and the run as a whole *)

Section WriterProperties.

Variable w : World.
Variable cmd : Commander.

Lemma writeFailures_app (a b : list LogEntry) :
  writeFailures (a ++ b) = writeFailures a + writeFailures b.
Proof. unfold writeFailures. rewrite filter_app, length_app. reflexivity. Qed.

Lemma directoryFailures_app (a b : list LogEntry) :
  directoryFailures (a ++ b) = directoryFailures a + directoryFailures b.
Proof. unfold directoryFailures. rewrite filter_app, length_app. reflexivity. Qed.

Lemma notFound_no_writeFailures (a : list LogEntry) :
  forallb isFileNotFound a = true ->
  writeFailures a = 0
  /\ forallb (fun e => isFileNotFound e || isWriteFailure e) a = true.
Proof.
  induction a as [|e a IH]; simpl; [split; reflexivity|].
  intros H. apply andb_true_iff in H as [He Ha]. destruct (IH Ha) as [IH1 IH2].
  rewrite He, IH2. split; [|reflexivity].
  unfold writeFailures in *. simpl. destruct e; try discriminate. exact IH1.
Qed.

Lemma no_directoryFailures (a : list LogEntry) :
  forallb (fun e => isFileNotFound e || isWriteFailure e) a = true ->
  directoryFailures a = 0.
Proof.
  induction a as [|e a IH]; simpl; [reflexivity|].
  intros H. apply andb_true_iff in H as [He Ha].
  unfold directoryFailures in *. simpl. destruct e; try discriminate; exact (IH Ha).
Qed.

Lemma writeFiles_accounts (fuel : nat) (files : list SourceFile) :
  forall st st',
    writeFiles w cmd fuel files st = Some st' ->
    exists added new,
      console st' = console st ++ added
      /\ errors st' = errors st + length added
      /\ forallb (fun e => isFileNotFound e || isWriteFailure e) added = true
      /\ writeFailures added
         = length (filter (fun p => negb (writeSucceeds w p)) (map (writePath cmd) files))
      /\ disk st' = disk st ++ new
      /\ map fst new = filter (writeSucceeds w) (map (writePath cmd) files)
      /\ written st' = written st + length new.
Proof.
  induction files as [|file rest IH]; intros st st' H.
  - injection H as <-. exists [], []. rewrite !app_nil_r, !Nat.add_0_r.
    repeat split.
  - simpl in H.
    destruct (doFileInclude w cmd fuel (targetOfSource file) true st)
      as [[contents st1]|] eqn:D; [|discriminate].
    apply doFileInclude_onlyMissingFiles in D as (W1 & D1 & a1 & C1 & E1 & F1).
    destruct (notFound_no_writeFailures a1 F1) as [Z1 O1].
    fold (writePath cmd file) in H. cbn [map filter].
    destruct (writeSucceeds w (writePath cmd file)).
    + apply IH in H as (added & new & C & E & O & Wf & Dk & P & Wr).
      simpl in C, E, Dk, Wr.
      exists (a1 ++ added), ((writePath cmd file, contents) :: new).
      rewrite C, C1, E, E1, Dk, D1, Wr, W1, forallb_app, O1, O, writeFailures_app, Z1,
        length_app, <- !app_assoc.
      simpl. rewrite P. repeat split; try lia; try assumption.
    + apply IH in H as (added & new & C & E & O & Wf & Dk & P & Wr).
      simpl in C, E, Dk, Wr.
      exists (a1 ++ LogCannotWriteFile :: added), new.
      rewrite C, C1, E, E1, Dk, D1, Wr, W1, forallb_app, O1, writeFailures_app, Z1,
        length_app, <- !app_assoc.
      simpl. rewrite O. unfold writeFailures in *. simpl. rewrite Wf.
      repeat split; try lia; try assumption.
Qed.

Lemma filter_both_length {A : Type} (f : A -> bool) (l : list A) :
  length (filter f l) + length (filter (fun x => negb (f x)) l) = length l.
Proof.
  induction l as [|x l IH]; [reflexivity|]. simpl.
  destruct (f x); simpl; lia.
Qed.

(** X16. The books of [writeFiles] balance, whenever it returns.  The
    writes that succeed are, in the order of the files, those to the
    destination followed by the output path of the file, and
    [summary.written] grows by their number: it counts writes, so a path
    that two files share is written and counted twice, and no path is
    written twice when the paths of the files differ.  [log] is called at
    the level of errors for missing files and, once for each write that
    fails, for the failed write, and [summary.errors] grows by the number
    of these calls.  Writes that succeed and writes that fail are together
    as many as the files. *)
Theorem X16_every_file_is_written_or_reported
    (fuel : nat) (files : list SourceFile) (st st' : State) :
  writeFiles w cmd fuel files st = Some st' ->
  exists added new,
    console st' = console st ++ added
    /\ errors st' = errors st + length added
    /\ forallb (fun e => isFileNotFound e || isWriteFailure e) added = true
    /\ writeFailures added
       = length (filter (fun p => negb (writeSucceeds w p)) (map (writePath cmd) files))
    /\ disk st' = disk st ++ new
    /\ map fst new = filter (writeSucceeds w) (map (writePath cmd) files)
    /\ written st' = written st + length new
    /\ length new + writeFailures added = length files
    /\ (NoDup (map (writePath cmd) files) -> NoDup (map fst new)).
Proof.
  intros H.
  apply writeFiles_accounts in H as (added & new & C & E & O & Wf & Dk & P & Wr).
  exists added, new. repeat (split; [assumption|]). split.
  - rewrite <- (length_map fst new), P, Wf, filter_both_length, length_map.
    reflexivity.
  - intros Hnd. rewrite P. apply NoDup_filter. exact Hnd.
Qed.

(** X17. Files are written one after the other, the counters carried
    along: writing a list is writing its first part and then the rest from
    the state the first part left. *)
Theorem X17_writing_in_two_batches
    (fuel : nat) (first rest : list SourceFile) (st : State) :
  writeFiles w cmd fuel (first ++ rest) st
  = match writeFiles w cmd fuel first st with
    | Some st1 => writeFiles w cmd fuel rest st1
    | None => None
    end.
Proof.
  revert st. induction first as [|file first IH]; intros st; [reflexivity|].
  simpl. destruct (doFileInclude w cmd fuel (targetOfSource file) true st)
    as [[contents st1]|]; [|reflexivity].
  apply IH.
Qed.

(** X18. With [omitSourceParent] (the default) the destination is flat:
    the output path of a scanned file is the last segment of the path it
    was found at, so it holds no slash and the directory made for it is the
    destination itself. *)
Theorem X18_default_output_is_flat
    (files : list jsstring) (st : State) (f : SourceFile) :
  omitSourceParent cmd = true ->
  In f (fst (checkForPattern w files st)) ->
  exists file,
    In file files
    /\ outputPath cmd f = getFilename file
    /\ ~ In SLASH (outputPath cmd f)
    /\ getDirectory (outputPath cmd f) = [].
Proof.
  intros Homit Hin. unfold checkForPattern in Hin.
  rewrite checkForPatternLoop_flat_map in Hin. cbn [fst app] in Hin.
  apply in_flat_map in Hin as (file & Hfile & Hf). unfold scanOne in Hf.
  destruct (readFileSync w file) as [contents|]; [|destruct Hf].
  destruct (nonEmpty (getMatches contents)); [|destruct Hf].
  destruct Hf as [<-|[]]. exists file.
  unfold outputPath. rewrite Homit. cbn [filename].
  split; [apply (beforeDirectory_incl w); exact Hfile|].
  split; [reflexivity|].
  assert (S := getFilename_segment file).
  split; [exact S|]. apply (path_parts (getFilename file)). exact S.
Qed.

Lemma init_unguarded (fuel : nat) (foundFiles : list jsstring) (st : State) :
  init w cmd fuel foundFiles st
  = writeFiles w cmd fuel
      (removeIncludedFiles (fst (checkForPattern w foundFiles st)))
      (snd (checkForPattern w foundFiles st)).
Proof.
  unfold init. destruct foundFiles as [|file rest]; [reflexivity|].
  cbn [nonEmpty].
  destruct (checkForPattern w (file :: rest) st) as [[|f hasPattern] st1];
    [reflexivity|].
  cbn [nonEmpty fst snd].
  destruct (removeIncludedFiles (f :: hasPattern)); reflexivity.
Qed.

(** X19. The three length checks of [init] change nothing: a run is the
    scan, then the classification of what the scan found, then the writing
    of what the classification kept, whether or not any of the three lists
    is empty. *)
Theorem X19_length_checks_change_nothing
    (fuel : nat) (foundFiles : list jsstring) (st : State) :
  init w cmd fuel foundFiles st
  = writeFiles w cmd fuel
      (removeIncludedFiles (fst (checkForPattern w foundFiles st)))
      (snd (checkForPattern w foundFiles st)).
Proof. apply init_unguarded. Qed.

Lemma removeIncludedFiles_length (files : list SourceFile) :
  length (removeIncludedFiles files) <= length files.
Proof. rewrite removeIncludedFiles_filter. apply filter_length_le. Qed.

(** X20. The summary of a run that ends.  [summary.errors] counts every
    call of [log] at the level of errors but the one about a source
    directory, of which there is at most one.  [summary.written] counts
    the writes that succeeded: in the order of the files the
    classification kept, those to the destination followed by the output
    path of the file.  Writes that succeeded and calls about a failed
    write are together as many as the files kept, which are no more than
    the candidates. *)
Theorem X20_summary_of_a_run
    (fuel : nat) (foundFiles : list jsstring) (st st' : State) :
  init w cmd fuel foundFiles st = Some st' ->
  exists added new,
    console st' = console st ++ added
    /\ errors st' + directoryFailures added = errors st + length added
    /\ directoryFailures added <= 1
    /\ disk st' = disk st ++ new
    /\ map fst new
       = filter (writeSucceeds w)
                (map (writePath cmd)
                     (removeIncludedFiles (fst (checkForPattern w foundFiles st))))
    /\ written st' = written st + length new
    /\ length new + writeFailures added
       = length (removeIncludedFiles (fst (checkForPattern w foundFiles st)))
    /\ length new + writeFailures added <= length foundFiles.
Proof.
  rewrite init_unguarded. intros H.
  apply writeFiles_accounts in H as (added & new & C & E & O & Wf & Dk & P & Wr).
  assert (L : length new + writeFailures added
              = length (removeIncludedFiles (fst (checkForPattern w foundFiles st)))).
  { rewrite <- (length_map fst new), P, Wf, filter_both_length, length_map.
    reflexivity. }
  assert (Hroots := removeIncludedFiles_length (fst (checkForPattern w foundFiles st))).
  revert C E Dk Wr L P Hroots. unfold checkForPattern.
  rewrite checkForPatternLoop_flat_map. cbn [fst snd app].
  assert (H1 := flat_map_scanOne_length w (beforeDirectory w foundFiles)).
  assert (H2 := beforeDirectory_length w foundFiles).
  assert (Z := no_directoryFailures added O).
  destruct (length (beforeDirectory w foundFiles) <? length foundFiles);
    simpl; intros C E Dk Wr L P Hroots.
  - exists (LogCannotReadSourceDirectory :: added), new.
    rewrite <- app_assoc in C.
    split; [exact C|]. unfold directoryFailures in *. unfold writeFailures in *.
    simpl. repeat split; try assumption; lia.
  - exists added, new. repeat split; try assumption; lia.
Qed.

End WriterProperties.

Lemma X16_written_or_reported_witness :
  writeFiles worldSameName defaultCommander 2 exSameName initialState
  = Some (mkState 2 0 [] [(lit "build/index.html", lit "Hello");
                          (lit "build/index.html", lit "Bonjour")])
  /\ exists added new,
       [] = console initialState ++ added
       /\ 0 = errors initialState + length added
       /\ forallb (fun e => isFileNotFound e || isWriteFailure e) added = true
       /\ writeFailures added
          = length (filter (fun p => negb (writeSucceeds worldSameName p))
                           (map (writePath defaultCommander) exSameName))
       /\ [(lit "build/index.html", lit "Hello"); (lit "build/index.html", lit "Bonjour")]
          = disk initialState ++ new
       /\ map fst new
          = filter (writeSucceeds worldSameName)
                   (map (writePath defaultCommander) exSameName)
       /\ 2 = written initialState + length new
       /\ length new + writeFailures added = length exSameName
       /\ (NoDup (map (writePath defaultCommander) exSameName) -> NoDup (map fst new)).
Proof.
  split; [reflexivity|].
  apply (X16_every_file_is_written_or_reported worldSameName defaultCommander 2
           exSameName initialState
           (mkState 2 0 [] [(lit "build/index.html", lit "Hello");
                            (lit "build/index.html", lit "Bonjour")])).
  reflexivity.
Defined.

Lemma X18_flat_output_witness :
  exists file,
    In file [lit "src/partials/header.html"]
    /\ outputPath defaultCommander
         (mkSource (lit "src/partials") (lit "header.html")
                   [mkMatch (lit "@@include('logo.html')") (lit "logo.html")])
       = getFilename file
    /\ ~ In SLASH (outputPath defaultCommander
                     (mkSource (lit "src/partials") (lit "header.html")
                               [mkMatch (lit "@@include('logo.html')") (lit "logo.html")]))
    /\ getDirectory (outputPath defaultCommander
                       (mkSource (lit "src/partials") (lit "header.html")
                                 [mkMatch (lit "@@include('logo.html')") (lit "logo.html")]))
       = [].
Proof.
  apply (X18_default_output_is_flat
           (worldOf [(lit "src/partials/header.html", lit "@@include('logo.html')")] [] [])
           defaultCommander [lit "src/partials/header.html"] initialState).
  - reflexivity.
  - left. reflexivity.
Defined.

Lemma X20_summary_witness :
  exists st',
    init worldUnreadable defaultCommander 3
         [lit "src/index.html"; lit "src/partials/header.html"; lit "src/dir.html"]
         initialState = Some st'
    /\ exists added new,
         console st' = console initialState ++ added
         /\ errors st' + directoryFailures added = errors initialState + length added
         /\ directoryFailures added <= 1
         /\ disk st' = disk initialState ++ new
         /\ map fst new
            = filter (writeSucceeds worldUnreadable)
                     (map (writePath defaultCommander)
                          (removeIncludedFiles
                             (fst (checkForPattern worldUnreadable
                                     [lit "src/index.html"; lit "src/partials/header.html";
                                      lit "src/dir.html"] initialState))))
         /\ written st' = written initialState + length new
         /\ length new + writeFailures added
            = length (removeIncludedFiles
                        (fst (checkForPattern worldUnreadable
                                [lit "src/index.html"; lit "src/partials/header.html";
                                 lit "src/dir.html"] initialState)))
         /\ length new + writeFailures added
            <= length [lit "src/index.html"; lit "src/partials/header.html";
                       lit "src/dir.html"].
Proof.
  eexists. split; [reflexivity|].
  apply (X20_summary_of_a_run worldUnreadable defaultCommander 3
           [lit "src/index.html"; lit "src/partials/header.html"; lit "src/dir.html"]
           initialState).
  reflexivity.
Defined.

(** ** The command line: argument lists and output levels *)

Section CommandLineProperties.

Lemma indexOf_char (c : N) (u v : jsstring) :
  ~ In c u -> indexOf [c] (u ++ c :: v) = Some (length u).
Proof.
  induction u as [|x u IH]; intros H.
  - simpl. rewrite N.eqb_refl. reflexivity.
  - simpl app. cbn [indexOf stripPrefix].
    destruct (N.eqb_spec c x) as [->|Hx]; [elim H; left; reflexivity|].
    rewrite IH; [reflexivity|]. intros Hin. apply H. right; exact Hin.
Qed.

Lemma indexOf_char_absent (c : N) (s : jsstring) :
  ~ In c s -> indexOf [c] s = None.
Proof.
  induction s as [|x s IH]; intros H; [reflexivity|].
  cbn [indexOf stripPrefix].
  destruct (N.eqb_spec c x) as [->|Hx]; [elim H; left; reflexivity|].
  rewrite IH; [reflexivity|]. intros Hin. apply H. right; exact Hin.
Qed.

Lemma replace_char_by_nothing (c : N) (u v : jsstring) :
  ~ In c u -> replace (u ++ c :: v) [c] [] = u ++ v.
Proof.
  intros H. unfold replace. rewrite (indexOf_char c u v H). cbv zeta.
  cbn [getSubstitution app].
  rewrite firstn_app, firstn_all, Nat.sub_diag. simpl firstn. rewrite app_nil_r.
  f_equal. change (c :: v) with ([c] ++ v). rewrite app_assoc.
  replace (length u + length [c]) with (length (u ++ [c])) by apply length_app.
  apply skipn_at.
Qed.

(** X21. [argList] does not split at commas.  It deletes the first comma
    of the value, and only that one, and splits what is left at every
    space: so the arguments hold no space, there is always at least one,
    and a value without comma is split as it is. *)
Theorem X21_argList_drops_one_comma_and_splits_at_spaces (val x y : jsstring) :
  (~ In COMMA val -> argList val = split SPACE val)
  /\ (~ In COMMA x -> argList (x ++ COMMA :: y) = split SPACE (x ++ y))
  /\ Forall (fun arg => ~ In SPACE arg) (argList val)
  /\ argList val <> [].
Proof.
  unfold argList. split; [|split; [|split]].
  - intros H. rewrite replace_absent; [reflexivity|].
    apply indexOf_char_absent. exact H.
  - intros H. rewrite replace_char_by_nothing by exact H. reflexivity.
  - apply split_segments.
  - apply split_not_nil.
Qed.

(** X22. The output levels.  With [--silent] nothing is logged, whatever
    the level of the message; otherwise messages of the default level,
    among them every error, are logged.  [--verbose] wins over
    [--extra-verbose]: the lists of the extra-verbose level are logged only
    when [--extra-verbose] is given without [--verbose] and without
    [--silent].  Where the timer is guarded by the output level, the run is
    timed exactly when [--silent] is not given.  A message of level
    [SILENT] is never logged. *)
Theorem X22_output_levels (silent verbose extraVerbose : bool) (level : Z) :
  printed level (outputLevel true verbose extraVerbose) = false
  /\ printed DEFAULT (outputLevel silent verbose extraVerbose) = negb silent
  /\ printed VERBOSE (outputLevel silent verbose extraVerbose)
     = negb silent && (verbose || extraVerbose)
  /\ printed EXTRAVERBOSE (outputLevel silent verbose extraVerbose)
     = negb silent && negb verbose && extraVerbose
  /\ timed (outputLevel silent verbose extraVerbose) = negb silent
  /\ printed SILENT level = false.
Proof.
  split; [|split; [|split; [|split; [|split]]]].
  - reflexivity.
  - destruct silent, verbose, extraVerbose; reflexivity.
  - destruct silent, verbose, extraVerbose; reflexivity.
  - destruct silent, verbose, extraVerbose; reflexivity.
  - destruct silent, verbose, extraVerbose; reflexivity.
  - unfold printed, nonZero, SILENT. rewrite Z.land_0_r. reflexivity.
Qed.

Variable glob : jsstring -> list jsstring.

Lemma findFiles_inner (includes : list jsstring) (directory : jsstring) :
  forall fileList,
    fold_left (fun fileList' include => fileList' ++ glob (slashed directory include))
              includes fileList
    = fileList ++ flat_map (fun include => glob (slashed directory include)) includes.
Proof.
  induction includes as [|i includes IH]; intros fileList; simpl.
  - rewrite app_nil_r. reflexivity.
  - rewrite IH, <- app_assoc. reflexivity.
Qed.

Lemma findFiles_outer (includes path : list jsstring) :
  forall fileList,
    fold_left
      (fun fileList directory =>
         fold_left (fun fileList' include => fileList' ++ glob (slashed directory include))
                   includes fileList)
      path fileList
    = fileList
        ++ flat_map (fun directory =>
                       flat_map (fun include => glob (slashed directory include)) includes)
                    path.
Proof.
  induction path as [|d path IH]; intros fileList; simpl.
  - rewrite app_nil_r. reflexivity.
  - rewrite IH, findFiles_inner, <- app_assoc. reflexivity.
Qed.

(** X23. [findFiles] lists, directory after directory and for each
    directory pattern after pattern, what the glob of the directory, a
    slash and the pattern gives.  A file is listed exactly when one such
    glob gives it, and as many times as globs give it: nothing is removed.
    The list for two lists of directories is the two lists one after the
    other. *)
Theorem X23_findFiles_lists_every_glob_in_order
    (includes path path' : list jsstring) (file : jsstring) :
  findFiles glob includes path
  = flat_map (fun directory =>
                flat_map (fun include => glob (slashed directory include)) includes)
             path
  /\ (In file (findFiles glob includes path) <->
      exists directory include,
        In directory path /\ In include includes
        /\ In file (glob (slashed directory include)))
  /\ findFiles glob includes (path ++ path')
     = findFiles glob includes path ++ findFiles glob includes path'
  /\ length (findFiles glob includes path)
     = list_sum (map (fun directory =>
                        list_sum (map (fun include =>
                                         length (glob (slashed directory include)))
                                      includes))
                     path).
Proof.
  assert (E : forall p, findFiles glob includes p
                        = flat_map (fun directory =>
                                      flat_map (fun include =>
                                                  glob (slashed directory include))
                                               includes) p).
  { intros p. unfold findFiles. rewrite findFiles_outer. reflexivity. }
  split; [apply E|]. split; [|split].
  - rewrite E, in_flat_map. split.
    + intros (d & Hd & Hin). apply in_flat_map in Hin as (i & Hi & Hf).
      exists d, i. auto.
    + intros (d & i & Hd & Hi & Hf). exists d. split; [exact Hd|].
      apply in_flat_map. exists i. auto.
  - rewrite !E. apply flat_map_app.
  - rewrite E. clear E. induction path as [|d path IH]; [reflexivity|].
    simpl. rewrite length_app, IH. f_equal.
    clear IH. induction includes as [|i includes IH]; [reflexivity|].
    simpl. rewrite length_app, IH. reflexivity.
Qed.

End CommandLineProperties.

Lemma X21_argList_witness :
  argList (lit "src lib") = [lit "src"; lit "lib"]
  /\ argList (lit "a,b,c d") = [lit "ab,c"; lit "d"].
Proof.
  split.
  - apply (proj1 (X21_argList_drops_one_comma_and_splits_at_spaces
                    (lit "src lib") [] [])).
    apply notIn_by_search. reflexivity.
  - apply (proj1 (proj2 (X21_argList_drops_one_comma_and_splits_at_spaces
                           [] (lit "a") (lit "b,c d")))).
    apply notIn_by_search. reflexivity.
Defined.

(** ** Inclusion that ends *)

Section Termination.

Variable w : World.
Variable cmd : Commander.

Lemma includeLoop_ext
    (fetch fetch' : IncMatch -> State -> option (option jsstring * State))
    (found : list IncMatch) :
  (forall m s, In m found -> fetch m s = fetch' m s) ->
  forall c st, includeLoop fetch found c st = includeLoop fetch' found c st.
Proof.
  induction found as [|m found IH]; intros H c st; [reflexivity|].
  simpl. rewrite <- (H m st) by (left; reflexivity).
  destruct (fetch m st) as [[[r|] s1]|]; try reflexivity.
  apply IH. intros m' s' Hin. apply H. right; exact Hin.
Qed.

Lemma includeLoop_returns
    (fetch : IncMatch -> State -> option (option jsstring * State))
    (found : list IncMatch) :
  (forall m s, In m found -> exists r, fetch m s = Some r) ->
  forall c st, exists r, includeLoop fetch found c st = Some r.
Proof.
  induction found as [|m found IH]; intros H c st; simpl.
  - eexists; reflexivity.
  - destruct (H m st (or_introl eq_refl)) as [[[r|] s1] ->].
    + apply IH. intros m' s' Hin. apply H. right; exact Hin.
    + eexists; reflexivity.
Qed.

Variable rank : jsstring -> nat.

Hypothesis inclusion_descends :
  forall file contents m,
    readFileSync w (pathOf file) = ReadOk contents ->
    In m (getMatches contents) ->
    rank (slashed (matchDirectoryOf file) (m_filename m)) < rank (pathOf file).

Lemma doFileInclude_deep_enough (fuel : nat) :
  forall fuel' file insertNotFound st,
    rank (pathOf file) < fuel ->
    rank (pathOf file) < fuel' ->
    doFileInclude w cmd fuel file insertNotFound st
    = doFileInclude w cmd fuel' file insertNotFound st
    /\ exists r, doFileInclude w cmd fuel file insertNotFound st = Some r.
Proof.
  induction fuel as [|fuel IH]; intros fuel' file flag st Hf Hf'; [lia|].
  destruct fuel' as [|fuel']; [lia|].
  rewrite !doFileInclude_eq. fold (pathOf file).
  destruct (readFileSync w (pathOf file)) as [contents|code] eqn:R.
  - assert (Hstep : forall m s,
               In m (getMatches contents) ->
               fetchMatch w cmd (doFileInclude w cmd fuel) (matchDirectoryOf file) m s
               = fetchMatch w cmd (doFileInclude w cmd fuel') (matchDirectoryOf file) m s
               /\ exists r,
                    fetchMatch w cmd (doFileInclude w cmd fuel) (matchDirectoryOf file) m s
                    = Some r).
    { intros m s Hin. assert (D := inclusion_descends file contents m R Hin).
      unfold fetchMatch. destruct (includeRecursive cmd).
      - destruct (IH fuel' (targetOfMatch (matchDirectoryOf file) m) true s)
          as [E [r Hr]]; try (unfold pathOf; simpl; lia).
        rewrite <- E, Hr. split; [reflexivity|]. destruct r. eexists; reflexivity.
      - split; [reflexivity|].
        destruct (getFileContents w _); eexists; reflexivity. }
    rewrite <- (includeLoop_ext _ _ (getMatches contents)
                  (fun m s Hin => proj1 (Hstep m s Hin)) contents st).
    split; [reflexivity|].
    destruct (includeLoop_returns _ (getMatches contents)
                (fun m s Hin => proj2 (Hstep m s Hin)) contents st) as [[[e c'] s'] ->].
    destruct e; eexists; reflexivity.
  - split; [reflexivity|]. eexists; reflexivity.
Qed.

Lemma writeFiles_deep_enough (fuel fuel' : nat) (files : list SourceFile) :
  Forall (fun f => rank (pathOf (targetOfSource f)) < fuel
                   /\ rank (pathOf (targetOfSource f)) < fuel') files ->
  forall st,
    writeFiles w cmd fuel files st = writeFiles w cmd fuel' files st
    /\ exists st', writeFiles w cmd fuel files st = Some st'.
Proof.
  induction 1 as [|f files [Hf Hf'] _ IH]; intros st; simpl.
  - split; [reflexivity|]. eexists; reflexivity.
  - destruct (doFileInclude_deep_enough fuel fuel' (targetOfSource f) true st Hf Hf')
      as [<- [[contents st1] ->]].
    apply IH.
Qed.

End Termination.

(** X24. Inclusion that ends is resolved.  When the files can be ranked
    so that a file that is read ranks above every file its directives
    name, resolving a file returns, errors included, at every bound on the
    depth above the rank of the file, and with the same contents and
    state at all of them; and so does the writing of a list of such
    files. *)
Theorem X24_inclusion_that_ends_is_resolved
    (w : World) (cmd : Commander) (rank : jsstring -> nat) :
  (forall file contents m,
      readFileSync w (pathOf file) = ReadOk contents ->
      In m (getMatches contents) ->
      rank (slashed (matchDirectoryOf file) (m_filename m)) < rank (pathOf file)) ->
  (forall fuel fuel' file insertNotFound st,
      rank (pathOf file) < fuel ->
      rank (pathOf file) < fuel' ->
      doFileInclude w cmd fuel file insertNotFound st
      = doFileInclude w cmd fuel' file insertNotFound st
      /\ exists out st', doFileInclude w cmd fuel file insertNotFound st = Some (out, st'))
  /\ (forall fuel fuel' files st,
         Forall (fun f => rank (pathOf (targetOfSource f)) < fuel
                          /\ rank (pathOf (targetOfSource f)) < fuel') files ->
         writeFiles w cmd fuel files st = writeFiles w cmd fuel' files st
         /\ exists st', writeFiles w cmd fuel files st = Some st').
Proof.
  intros Hrank. split.
  - intros fuel fuel' file flag st Hf Hf'.
    destruct (doFileInclude_deep_enough w cmd rank Hrank fuel fuel' file flag st Hf Hf')
      as [E [[out st'] Hr]].
    split; [exact E|]. exists out, st'. exact Hr.
  - intros fuel fuel' files st Hfiles.
    apply (writeFiles_deep_enough w cmd rank Hrank fuel fuel' files Hfiles).
Qed.

Lemma rankNested_descends :
  forall file contents m,
    readFileSync worldNested (pathOf file) = ReadOk contents ->
    In m (getMatches contents) ->
    rankNested (slashed (matchDirectoryOf file) (m_filename m)) < rankNested (pathOf file).
Proof.
  intros file contents m. unfold worldNested, worldOf. cbn [readFileSync lookupFile].
  assert (Hlast : forall d name,
             name <> [] -> rankNested (slashed d name) = rankNested name).
  { intros d name Hne. unfold rankNested, slashed.
    change (d ++ SLASH :: name) with (d ++ [SLASH] ++ name).
    rewrite app_assoc, last_app_ne by exact Hne. reflexivity. }
  destruct (streq (pathOf file) (lit "src/index.html")) eqn:E1.
  { apply streq_spec in E1. rewrite E1. intros H; injection H as <-. intros Hin.
    change (In m [mkMatch (lit "@@include('a')") (lit "a")]) in Hin.
    destruct Hin as [<-|[]]. cbn [m_filename].
    rewrite (Hlast _ (lit "a")) by discriminate. vm_compute. lia. }
  destruct (streq (pathOf file) (lit "src/a")) eqn:E2.
  { apply streq_spec in E2. rewrite E2. intros H; injection H as <-. intros Hin.
    change (In m [mkMatch (lit "@@include('b')") (lit "b")]) in Hin.
    destruct Hin as [<-|[]]. cbn [m_filename].
    rewrite (Hlast _ (lit "b")) by discriminate. vm_compute. lia. }
  destruct (streq (pathOf file) (lit "src/b")) eqn:E3.
  { intros H; injection H as <-. intros Hin.
    change (In m []) in Hin. destruct Hin. }
  simpl. discriminate.
Qed.

Lemma X24_inclusion_that_ends_witness :
  doFileInclude worldNested defaultCommander 3 exRoot true initialState
  = doFileInclude worldNested defaultCommander 7 exRoot true initialState
  /\ exists out st',
       doFileInclude worldNested defaultCommander 3 exRoot true initialState
       = Some (out, st').
Proof.
  apply (proj1 (X24_inclusion_that_ends_is_resolved worldNested defaultCommander
                  rankNested rankNested_descends) 3 7 exRoot true initialState);
    vm_compute; lia.
Defined.
